(** * mssh: the Message Stream Shell

    A shallow embedding of [mssh.go] and the properties of its packet
    parser, shortcut expander, command dispatcher and session loop.

    Conventions of the embedding:
    - a Go [string] is a sequence of bytes: [string] of [Stdlib], one
      [ascii] per byte; [s[i]] and [s[a:b]] are byte operations;
    - a Go [map[string]string] is a [gmap string string];
    - a Go function returning [(T, error)] returns an [outcome]: [Ok],
      [Err], or [Panic] where the Go runtime would panic (index or slice
      out of range);
    - what the operator sees on standard output is not modelled; the calls
      made to the transport and to the shortcut file are recorded in a
      trace of events. *)

From Stdlib Require Import ZArith Ascii String List Lia Bool.
From stdpp Require Import base option list strings gmap.

Local Open Scope string_scope.

(** ** Bytes and strings *)

Definition dquote : ascii := Ascii.ascii_of_nat 34.
Definition tab : ascii := Ascii.ascii_of_nat 9.
Definition backslash : ascii := Ascii.ascii_of_nat 92.

(** [quoted s] is [s] between two double quotes. *)
Definition quoted (s : string) : string :=
  String dquote (s ++ String dquote EmptyString).

(** [strings.Contains(s, sep)] for a one-byte [sep]. *)
Fixpoint Contains (s : string) (sep : ascii) : bool :=
  match s with
  | EmptyString => false
  | String c s' => if Ascii.eqb c sep then true else Contains s' sep
  end.

(** [strings.Split(s, sep)] for a one-byte [sep]: the pieces of [s] between
    the occurrences of [sep]; never an empty slice. *)
Fixpoint Split (s : string) (sep : ascii) : list string :=
  match s with
  | EmptyString => [EmptyString]
  | String c s' =>
      if Ascii.eqb c sep then EmptyString :: Split s' sep
      else match Split s' sep with
           | t :: ts => String c t :: ts
           | [] => [String c EmptyString]
           end
  end.

(** [strings.SplitN(s, sep, n)] for a one-byte [sep] and [n > 0]: at most
    [n] pieces, the last one being the unsplit rest. *)
Fixpoint SplitN (s : string) (sep : ascii) (n : nat) : list string :=
  match n with
  | 0 => []
  | 1 => [s]
  | S n' =>
      match s with
      | EmptyString => [EmptyString]
      | String c s' =>
          if Ascii.eqb c sep then EmptyString :: SplitN s' sep n'
          else match SplitN s' sep n with
               | t :: ts => String c t :: ts
               | [] => [String c EmptyString]
               end
      end
  end.

(** [strings.Trim(s, cutset)]: [s] without the leading and trailing bytes
    that belong to [cutset]. *)
Fixpoint TrimLeft (s : string) (cutset : list ascii) : string :=
  match s with
  | EmptyString => EmptyString
  | String c s' =>
      if existsb (Ascii.eqb c) cutset then TrimLeft s' cutset else s
  end.

Fixpoint TrimRight (s : string) (cutset : list ascii) : string :=
  match s with
  | EmptyString => EmptyString
  | String c s' =>
      match TrimRight s' cutset with
      | EmptyString =>
          if existsb (Ascii.eqb c) cutset then EmptyString
          else String c EmptyString
      | r => String c r
      end
  end.

Definition Trim (s : string) (cutset : list ascii) : string :=
  TrimRight (TrimLeft s cutset) cutset.

(** The last byte of a string, [s[len(s)-1]]. *)
Fixpoint lastByte (s : string) : option ascii :=
  match s with
  | EmptyString => None
  | String c EmptyString => Some c
  | String _ s' => lastByte s'
  end.

(** ** Results *)

(** The errors of the shell, named after the taxonomy of the
    specification; the Go source builds each with [fmt.Errorf]:
    - [MissingCommandType]: "Missing command type"
    - [MissingChildName]: "Missing child element name after '<' ..."
    - [UnterminatedChildElement]: "Missig '>' at end of child element definition"
    - [UnterminatedStringLiteral]: "Missing (quote) at end of string literal"
    - [MissingCommand]: "Missing command after !"
    - [UnsupportedCommand]: "Unsupported command (!quit, ...)"
    - [LoginNotConnected]: "Not connected, cannot perform login"
    - [MissingShortcutName]: "Missing shortcut name after @"
    - [UndefinedShortcut n]: "Shortcut n is not defined"
    - [InvalidArgumentIndex i]: "Invalid shortcut argument $i"
    - [RecursionLimitExceeded]: "Shortcut nesting is too deep, ..."
    - [NotConnected]: "You cannot send/submit a packet when disconnected, ..."
    - [ErrQuit]: the package variable [ErrQuit]
    - [External e]: an error value returned by a collaborator (the
      transport, the file system, [strconv], [encoding/csv], the input
      stream); it is never [ErrQuit], which is compared by identity. *)
Inductive error : Type :=
  | MissingCommandType
  | MissingChildName
  | UnterminatedChildElement
  | UnterminatedStringLiteral
  | MissingCommand
  | UnsupportedCommand
  | LoginNotConnected
  | MissingShortcutName
  | UndefinedShortcut (name : string)
  | InvalidArgumentIndex (argIndex : nat)
  | RecursionLimitExceeded
  | NotConnected
  | ErrQuit
  | External (code : nat).

Inductive outcome (A : Type) : Type :=
  | Ok (a : A)
  | Err (e : error)
  | Panic.
Arguments Ok {A} a.
Arguments Err {A} e.
Arguments Panic {A}.

(** ** Elements, end points and packets

    The types of the messageStream package ([ms] in the source) that the
    shell builds and reads. *)
Module ms.

(** [ms.Element]: a name, attributes and an ordered list of children,
    each a nested element or a literal text value. *)
Inductive Element : Type :=
  mkElement (Name : string) (Attributes : gmap string string)
            (Children : list Child)
with Child : Type :=
  | ChildElement (e : Element)
  | ChildValue (value : string).

Definition Name (e : Element) : string :=
  match e with mkElement n _ _ => n end.
Definition Attributes (e : Element) : gmap string string :=
  match e with mkElement _ a _ => a end.
Definition Children (e : Element) : list Child :=
  match e with mkElement _ _ c => c end.

(** [element.Attributes[k] = v], which is also what
    [element.SetAttribute(k, v)] does. *)
Definition SetAttribute (k v : string) (e : Element) : Element :=
  mkElement (Name e) (<[k := v]> (Attributes e)) (Children e).

(** [element.GetAttribute(k, default)]. *)
Definition GetAttribute (k dflt : string) (e : Element) : string :=
  default dflt (Attributes e !! k).

(** [element.Children = append(element.Children, c)]. *)
Definition appendChild (c : Child) (e : Element) : Element :=
  mkElement (Name e) (Attributes e) (Children e ++ [c]).

(** [ms.Element{Name: name, Attributes: ms.Attributes{}}]. *)
Definition newElement (name : string) : Element := mkElement name ∅ [].

(** [*ms.EndPoint]: the name given to [ms.NewEndPoint] and the
    connection it wraps, identified by a number. *)
Record EndPoint : Type := mkEndPoint { epName : string; epConn : nat }.

(** [ms.Packet]. *)
Record Packet : Type := mkPacket { pEndPoint : EndPoint; pElement : Element }.

End ms.

(** ** The element parser *)

(** [parseTokens(tokens, iToken, element)]. The cursor [(tokens, iToken)]
    is the slice [tokens[iToken:]] of the tokens not yet consumed, and the
    cursor returned is the slice that remains; [element], which the Go code
    updates in place, is threaded through. The call returns at the end of
    the tokens or in front of a [">"] token. [fuel] bounds the iterations
    of the loop and the depth of the recursion; [None] is an exhausted
    fuel, which [parseTokens_fuel_enough] below shows never happens with
    more fuel than tokens. *)
Fixpoint parseTokens (fuel : nat) (tokens : list string) (element : ms.Element)
  : option (outcome (list string * ms.Element)) :=
  match fuel with
  | 0 => None
  | S fuel =>
      match tokens with
      | [] => Some (Ok ([], element))
      | token :: rest =>
          if String.eqb token ">" then Some (Ok (tokens, element))
          else
            match token with
            | EmptyString => Some Panic (* token[0] of an empty token *)
            | String c0 tail =>
                if Ascii.eqb c0 "<" then
                  let named :=
                    if Nat.ltb 1 (String.length token) then Some (tail, rest)
                    else match rest with
                         | [] => None
                         | name :: rest' => Some (name, rest')
                         end in
                  match named with
                  | None => Some (Err MissingChildName)
                  | Some (name, rest1) =>
                      match parseTokens fuel rest1 (ms.newElement name) with
                      | None => None
                      | Some Panic => Some Panic
                      | Some (Err e) => Some (Err e)
                      | Some (Ok (rest2, childElement)) =>
                          match rest2 with
                          | [] => Some (Err UnterminatedChildElement)
                          | t :: rest3 =>
                              if String.eqb t ">" then
                                parseTokens fuel rest3
                                  (ms.appendChild (ms.ChildElement childElement) element)
                              else Some (Err UnterminatedChildElement)
                          end
                      end
                  end
                else if negb (Ascii.eqb c0 dquote) && Contains token "=" then
                  match Split token "=" with
                  | f0 :: f1 :: _ =>
                      parseTokens fuel rest (ms.SetAttribute f0 f1 element)
                  | _ => Some Panic (* fields[1] *)
                  end
                else if Ascii.eqb c0 dquote then
                  if negb (bool_decide (lastByte token = Some dquote)) then
                    Some (Err UnterminatedStringLiteral)
                  else if Nat.ltb (String.length token - 1) 1 then
                    Some Panic (* token[1 : len(token)-1] with len(token) = 1 *)
                  else
                    parseTokens fuel rest
                      (ms.appendChild
                         (ms.ChildValue (substring 1 (String.length token - 2) token))
                         element)
                else
                  parseTokens fuel rest (ms.appendChild (ms.ChildValue token) element)
            end
      end
  end.

(** [parsePacketCommand(endPoint, rawCommandLine)]. [parseTokens] is run
    with more fuel than there are tokens, which is always enough
    ([parseTokens_fuel_enough]), so the last branch is never taken. *)
Definition parsePacketCommand (endPoint : ms.EndPoint) (rawCommandLine : string)
  : outcome ms.Packet :=
  let command := Trim rawCommandLine [" "%char; tab] in
  match command with
  | EmptyString => Panic (* command[0] of an empty string *)
  | String c0 tail =>
      let isRequest := Ascii.eqb c0 "?" in
      let command := if isRequest then Trim tail [" "%char; tab] else command in
      let tokens := Split command " " in
      let packetName := if isRequest then "Request" else "Message" in
      let element := ms.newElement packetName in
      match tokens with
      | [] => Err MissingCommandType (* len(tokens) < 1 *)
      | type :: rest =>
          match parseTokens (S (length rest)) rest
                  (ms.SetAttribute "Type" type element) with
          | Some (Ok (_, element)) => Ok (ms.mkPacket endPoint element)
          | Some (Err e) => Err e
          | Some Panic => Panic
          | None => Panic
          end
      end
  end.

(** ** Shortcut templates *)

(** [int(b - '0')] for a byte [b]: the subtraction is on [uint8] and wraps
    around. *)
Definition byteMinusZero (b : ascii) : nat :=
  (nat_of_ascii b + 256 - nat_of_ascii "0") mod 256.

(** [string(c)] for a byte [c]: the conversion of an integer to a string
    gives the UTF-8 encoding of the code point of that value, which is the
    byte itself below [0x80], and from [0x80] on the two bytes
    [0xC0 | c >> 6] and [0x80 | c & 0x3F]. *)
Definition stringOfByte (c : ascii) : string :=
  let r := N_of_ascii c in
  if (r <? 128)%N then String c EmptyString
  else String (ascii_of_N (N.lor 192 (N.shiftr r 6)))
         (String (ascii_of_N (N.lor 128 (N.land r 63))) EmptyString).

(** The substitution loop of [ExpandShortcut]:
    [for i := 0; i < len(shortcut); i++ { ... }], from index [i] on with
    the text [result] built so far. [fuel] bounds the iterations that are
    left; [None] is an exhausted fuel. *)
Fixpoint expandLoop (fuel : nat) (shortcut : string) (tokens : list string)
    (i : nat) (result : string) : option (outcome string) :=
  match fuel with
  | 0 => None
  | S fuel =>
      if Nat.ltb i (String.length shortcut) then
        match String.get i shortcut with
        | None => Some Panic
        | Some c =>
            if Ascii.eqb c "$" && Nat.ltb 0 i
               && negb (bool_decide (String.get (i - 1) shortcut = Some backslash))
               && Nat.ltb i (String.length shortcut - 1)
            then
              match String.get (i + 1) shortcut with
              | None => Some Panic
              | Some d =>
                  let argIndex := byteMinusZero d in
                  if Nat.ltb argIndex 1 || Nat.leb (length tokens) argIndex then
                    Some (Err (InvalidArgumentIndex argIndex))
                  else
                    match tokens !! argIndex with
                    | None => Some Panic
                    | Some t => expandLoop fuel shortcut tokens (i + 1 + 1) (result ++ t)
                    end
              end
            else expandLoop fuel shortcut tokens (i + 1) (result ++ stringOfByte c)
        end
      else Some (Ok result)
  end.

(** The loop run from [i = 0] and [result = ""], with one unit of fuel
    more than the template has bytes ([expandLoop_fuel_enough]). *)
Definition expandTemplate (shortcut : string) (tokens : list string)
  : outcome string :=
  match expandLoop (S (String.length shortcut)) shortcut tokens 0 EmptyString with
  | Some r => r
  | None => Panic
  end.

(** ** Session state and collaborators *)

(** [State]. [Timeout] is a [time.Duration] in nanoseconds; [reader] holds
    the complete lines the operator has typed that were not read yet (each
    without its newline), after which every read fails with end of file;
    [shortcutNesting] is a Go [int]. *)
Record State : Type := mkState {
  EndPoint : option ms.EndPoint;
  Timeout : Z;
  Name : string;
  Shortcuts : gmap string string;
  reader : list string;
  pendingShortcut : option string;
  shortcutNesting : Z;
  connectedTo : string
}.

Definition set_EndPoint (v : option ms.EndPoint) (s : State) : State :=
  mkState v (Timeout s) (Name s) (Shortcuts s) (reader s)
          (pendingShortcut s) (shortcutNesting s) (connectedTo s).
Definition set_Timeout (v : Z) (s : State) : State :=
  mkState (EndPoint s) v (Name s) (Shortcuts s) (reader s)
          (pendingShortcut s) (shortcutNesting s) (connectedTo s).
Definition set_Name (v : string) (s : State) : State :=
  mkState (EndPoint s) (Timeout s) v (Shortcuts s) (reader s)
          (pendingShortcut s) (shortcutNesting s) (connectedTo s).
Definition set_Shortcuts (v : gmap string string) (s : State) : State :=
  mkState (EndPoint s) (Timeout s) (Name s) v (reader s)
          (pendingShortcut s) (shortcutNesting s) (connectedTo s).
Definition set_reader (v : list string) (s : State) : State :=
  mkState (EndPoint s) (Timeout s) (Name s) (Shortcuts s) v
          (pendingShortcut s) (shortcutNesting s) (connectedTo s).
Definition set_pendingShortcut (v : option string) (s : State) : State :=
  mkState (EndPoint s) (Timeout s) (Name s) (Shortcuts s) (reader s)
          v (shortcutNesting s) (connectedTo s).
Definition set_shortcutNesting (v : Z) (s : State) : State :=
  mkState (EndPoint s) (Timeout s) (Name s) (Shortcuts s) (reader s)
          (pendingShortcut s) v (connectedTo s).
Definition set_connectedTo (v : string) (s : State) : State :=
  mkState (EndPoint s) (Timeout s) (Name s) (Shortcuts s) (reader s)
          (pendingShortcut s) (shortcutNesting s) v.

(** Addition on a 64-bit Go [int], with its wrap-around. *)
Definition int_add (a b : Z) : Z :=
  ((a + b + 2 ^ 63) mod 2 ^ 64 - 2 ^ 63)%Z.

(** The calls the shell makes to its collaborators, in the order made. *)
Inductive Event : Type :=
  | EvDial (address : string)
  | EvClose (endPoint : option ms.EndPoint)
  | EvSend (packet : ms.Packet)
  | EvSubmit (packet : ms.Packet) (timeout : Z)
  | EvSave (shortcuts : gmap string string).

(** What a collaborator answers: a value, an error of its own, or a
    runtime panic inside the call. *)
Inductive answer (A : Type) : Type :=
  | Done (a : A)
  | Failed (code : nat)
  | Crashed.
Arguments Done {A} a.
Arguments Failed {A} code.
Arguments Crashed {A}.

Definition lift {A} (a : answer A) : outcome A :=
  match a with
  | Done a => Ok a
  | Failed code => Err (External code)
  | Crashed => Panic
  end.

(** The collaborators, none of which is code of this program. An answer
    may depend on everything the shell has asked before (the trace), so
    that a collaborator may answer the same call differently each time.
    - [csvRead]: [Read] of an [encoding/csv] reader with [Comma = ' '];
    - [parseSeconds]: [strconv.ParseFloat(s, 64)] followed by the
      conversion [time.Duration(t * float64(time.Second))];
    - [dial]: [net.DialTimeout("tcp", address, 3s)], answering a connection;
    - [close]: [endPoint.Close()], also on a nil end point;
    - [send], [submit]: [packet.Send()] and [<-packet.Submit(ctx)];
    - [save]: [os.Create] and the writes of [saveShortcuts];
    - [eof]: the code of the end-of-file error of the input stream. *)
Record Env : Type := mkEnv {
  csvRead : string -> answer (list string);
  parseSeconds : string -> answer Z;
  dial : string -> list Event -> answer nat;
  close : option ms.EndPoint -> list Event -> answer unit;
  send : ms.Packet -> list Event -> answer unit;
  submit : ms.Packet -> Z -> list Event -> answer ms.Element;
  save : gmap string string -> list Event -> answer unit;
  eof : nat
}.

(** ** The session monad

    The methods of [*State] read and update the state and call the
    collaborators: a computation takes the state and the trace and returns
    an outcome with the new state and trace. *)
Definition World : Type := State * list Event.

Definition M (A : Type) : Type := World -> outcome A * World.

Definition ret {A} (a : A) : M A := fun w => (Ok a, w).
Definition fail {A} (e : error) : M A := fun w => (Err e, w).
Definition panic {A} : M A := fun w => (Panic, w).

(** Sequencing: an error or a panic of the first computation ends the
    whole (the Go [if err != nil { return err }]). *)
Definition bind {A B} (m : M A) (k : A -> M B) : M B :=
  fun w =>
    match m w with
    | (Ok a, w') => k a w'
    | (Err e, w') => (Err e, w')
    | (Panic, w') => (Panic, w')
    end.

(** [_ = m]: the error of [m] is dropped, a panic is not. *)
Definition ignoreErr (m : M unit) : M unit :=
  fun w =>
    match m w with
    | (Err _, w') => (Ok tt, w')
    | r => r
    end.

(** A computation without effect, from its outcome. *)
Definition pure {A} (r : outcome A) : M A := fun w => (r, w).

Definition get : M State := fun w => (Ok (fst w), w).
Definition modify (f : State -> State) : M unit :=
  fun w => (Ok tt, (f (fst w), snd w)).

(** A call to a collaborator: the event is recorded, the answer is the
    collaborator's for the trace before the call. *)
Definition call {A} (ev : Event) (ans : list Event -> answer A) : M A :=
  fun w => (lift (ans (snd w)), (fst w, (snd w ++ [ev])%list)).

(** The notations [x ← m; k] and [m;; k] of stdpp are used for [bind]. *)
#[global] Instance M_ret : MRet M := @ret.
#[global] Instance M_bind : MBind M := fun A B k m => bind m k.

Section Shell.

Variable env : Env.

(** [state.disconnect()]. *)
Definition disconnect : M unit :=
  fun w =>
    let st := fst w in
    match call (EvClose (EndPoint st)) (close env (EndPoint st)) w with
    | (Panic, w') => (Panic, w')
    | (r, w') => (r, (set_EndPoint None (fst w'), snd w'))
    end.

(** [state.connect(address)]. The end point that [ms.NewEndPoint] builds
    carries the current [state.Name] and the new connection. *)
Definition connect (address : string) : M unit :=
  connection ← call (EvDial address) (dial env address);
  st ← get;
  (if bool_decide (EndPoint st <> None) then disconnect else ret tt);;
  st ← get;
  modify (set_EndPoint (Some (ms.mkEndPoint (Name st) connection))).

(** [state.saveShortcuts()]. *)
Definition saveShortcuts : M unit :=
  st ← get;
  call (EvSave (Shortcuts st)) (save env (Shortcuts st)).

(** The login request of [HandleCommand]:
    [state.EndPoint.Request(ms.Attributes{"Type": "_Login", "Name": ...})]. *)
Definition loginRequest (endPoint : ms.EndPoint) : ms.Packet :=
  ms.mkPacket endPoint
    (ms.mkElement "Request"
       (<["Type" := "_Login"]> (<["Name" := ms.epName endPoint]> ∅)) []).

(** [state.HandleCommand(line)]. *)
Definition HandleCommand (line : string) : M unit :=
  match line with
  | EmptyString => panic (* line[1:] *)
  | String _ line1 =>
      let tokens := Split line1 " " in
      match tokens with
      | [] => fail MissingCommand (* len(tokens) < 1 *)
      | EmptyString :: _ => panic (* tokens[0][0] *)
      | String c _ :: args =>
          if Ascii.eqb c "q" then
            st ← get;
            (if bool_decide (EndPoint st <> None) then ignoreErr disconnect
             else ret tt);;
            fail ErrQuit
          else if Ascii.eqb c "t" then
            match args with
            | [] => panic (* tokens[1] *)
            | seconds :: _ =>
                timeout ← pure (lift (parseSeconds env seconds));
                modify (set_Timeout timeout)
            end
          else if Ascii.eqb c "c" then
            match args with
            | [] => panic (* tokens[1] *)
            | address :: _ => connect address
            end
          else if Ascii.eqb c "d" then disconnect
          else if Ascii.eqb c "n" then
            match args with
            | [] => panic (* tokens[1] *)
            | name :: _ => modify (set_Name name)
            end
          else if Ascii.eqb c "s" then
            match SplitN line " " 3 with
            | [_] => ret tt (* the table is printed *)
            | [_; _] => ret tt (* one definition is printed *)
            | _ :: name :: definition :: _ =>
                st ← get;
                modify (set_Shortcuts (<[name := definition]> (Shortcuts st)));;
                saveShortcuts
            | [] => panic
            end
          else if Ascii.eqb c "l" then
            st ← get;
            match EndPoint st with
            | None => fail LoginNotConnected
            | Some endPoint =>
                reply ← call (EvSubmit (loginRequest endPoint) (Timeout st))
                           (submit env (loginRequest endPoint) (Timeout st));
                modify (set_connectedTo (ms.GetAttribute "Name" "-?-" reply))
            end
          else fail UnsupportedCommand
      end
  end.

(** [state.PushInput(line)]. *)
Definition PushInput (line : string) : M unit :=
  modify (fun st => set_shortcutNesting (int_add (shortcutNesting st) 1) st);;
  st ← get;
  if Z.ltb 10 (shortcutNesting st) then
    modify (set_pendingShortcut None);;
    fail RecursionLimitExceeded
  else modify (set_pendingShortcut (Some line)).

(** [state.ExpandShortcut(line)]. *)
Definition ExpandShortcut (line : string) : M unit :=
  match line with
  | EmptyString => panic (* line[1:] *)
  | String _ line1 =>
      tokens ← pure (lift (csvRead env line1));
      match tokens with
      | [] => fail MissingShortcutName (* len(tokens) < 1 *)
      | EmptyString :: _ => panic (* shortcutName[0] *)
      | String c name' as name0 :: _ =>
          let showOnly := Ascii.eqb c "?" in
          let shortcutName := if showOnly then name' else name0 in
          st ← get;
          match Shortcuts st !! shortcutName with
          | None => fail (UndefinedShortcut shortcutName)
          | Some shortcut =>
              result ← pure (expandTemplate shortcut tokens);
              if showOnly then ret tt (* the expansion is printed *)
              else PushInput result
          end
      end
  end.

(** [state.Execute(line)]. *)
Definition Execute (line : string) : M unit :=
  match line with
  | EmptyString => ret tt
  | String c _ =>
      if Ascii.eqb c "!" then HandleCommand line
      else if Ascii.eqb c "@" then ExpandShortcut line
      else
        st ← get;
        match EndPoint st with
        | Some endPoint =>
            packet ← pure (parsePacketCommand endPoint line);
            if negb (String.eqb (ms.Name (ms.pElement packet)) "Request") then
              call (EvSend packet) (send env packet)
            else
              _ ← call (EvSubmit packet (Timeout st))
                     (submit env packet (Timeout st));
              ret tt
        | None => fail NotConnected
        end
  end.

(** [state.GetInput()]. *)
Definition GetInput : M string :=
  st ← get;
  match pendingShortcut st with
  | None =>
      modify (set_shortcutNesting 0);;
      match reader st with
      | [] => fail (External (eof env))
      | line :: rest => modify (set_reader rest);; ret line
      end
  | Some line =>
      modify (set_pendingShortcut None);;
      ret line
  end.

(** One turn of the loop of [main]: the loop goes on (with the error it
    has reported, if any), is left on [ErrQuit], or the process dies of
    a panic. *)
Inductive turn : Type :=
  | Continue (reported : option error) (w : World)
  | Break (w : World)
  | Crash.

Definition loopBody (w : World) : turn :=
  match GetInput w with
  | (Ok line, w1) =>
      match Execute line w1 with
      | (Ok _, w2) => Continue None w2
      | (Err ErrQuit, w2) => Break w2
      | (Err e, w2) => Continue (Some e) w2
      | (Panic, _) => Crash
      end
  | (Err e, w1) => Continue (Some e) w1
  | (Panic, _) => Crash
  end.

(** The state [main] starts the loop with, [shortcuts] being what
    [loadShortcuts] has read from the shortcut file and [input] the
    lines of standard input. *)
Definition initialState (shortcuts : gmap string string) (input : list string)
  : State :=
  mkState None 2000000000 "mssh" shortcuts input None 0 "-?-".

(** The worlds at the head of the loop of [main]. Between two turns the
    [OnClose] callback of the end point may clear [state.EndPoint]. *)
Inductive reachable : World -> Prop :=
  | reach_init shortcuts input :
      reachable (initialState shortcuts input, [])
  | reach_turn w reported w' :
      reachable w -> loopBody w = Continue reported w' -> reachable w'
  | reach_OnClose st tr :
      reachable (st, tr) -> reachable (set_EndPoint None st, tr).

End Shell.

(** * Definitions for the statements *)

(** ** The grammar of a packet line

    The token sequences of the grammar
    [command := TYPE attr-or-child*],
    [attr-or-child := NAME=VALUE | < child-spec | quoted-value | bare-value],
    [child-spec := childname attr-or-child* >]. *)

(** The tokens that are neither an opening nor a closing of a child: an
    attribute [name=value], a quoted literal, or a bare value. *)
Inductive plainToken : string -> Prop :=
  | plain_quoted s : plainToken (quoted s)
  | plain_other c tail :
      c <> dquote -> c <> "<"%char -> String c tail <> ">" ->
      plainToken (String c tail).

(** A plain token is consumed, updating the element under construction:
    the attribute is set or the value is appended. *)
Definition plainUpdate (token : string) (el : ms.Element) : ms.Element :=
  match token with
  | EmptyString => el
  | String c _ =>
      if Ascii.eqb c dquote then
        ms.appendChild
          (ms.ChildValue (substring 1 (String.length token - 2) token)) el
      else if Contains token "=" then
        match Split token "=" with
        | f0 :: f1 :: _ => ms.SetAttribute f0 f1 el
        | _ => el
        end
      else ms.appendChild (ms.ChildValue token) el
  end.

(** ** Packet lines *)

(** The prelude of [parsePacketCommand]: whether the line is a request,
    and its tokens; [None] where [command[0]] panics. *)
Definition packetTokens (rawCommandLine : string) : option (bool * list string) :=
  match Trim rawCommandLine [" "%char; tab] with
  | EmptyString => None
  | String c0 tail =>
      Some (Ascii.eqb c0 "?",
            Split (if Ascii.eqb c0 "?" then Trim tail [" "%char; tab]
                   else String c0 tail) " ")
  end.

Definition rootElement (isRequest : bool) (type : string) : ms.Element :=
  ms.SetAttribute "Type" type
    (ms.newElement (if isRequest then "Request" else "Message")).

(** ** Child elements *)

(** The tokens that open a child element and the name they give it:
    [<name], or a lone [<] followed by the name. *)
Inductive opening : list string -> string -> Prop :=
  | open_attached name :
      name <> EmptyString -> opening [String "<" name] name
  | open_lone name : opening ["<"; name] name.

(** [attr-or-child*]: plain tokens and closed child elements. *)
Inductive items : list string -> Prop :=
  | items_nil : items []
  | items_plain t ts : plainToken t -> items ts -> items (t :: ts)
  | items_child o name body ts :
      opening o name -> items body -> items ts ->
      items (o ++ body ++ ">" :: ts).

(** A sequence of [attr-or-child] in which a child element is opened and
    the tokens end before the [>] that would close it: the unclosed child
    is the last thing on the line ([unclosed_last]), or it holds an
    unclosed child itself ([unclosed_nested]), after any number of plain
    tokens and closed children. *)
Inductive unclosed : list string -> Prop :=
  | unclosed_last o name body :
      opening o name -> items body -> unclosed (o ++ body)
  | unclosed_nested o name body :
      opening o name -> unclosed body -> unclosed (o ++ body)
  | unclosed_plain t ts : plainToken t -> unclosed ts -> unclosed (t :: ts)
  | unclosed_child o name body ts :
      opening o name -> items body -> unclosed ts ->
      unclosed (o ++ body ++ ">" :: ts).

(** A line that is neither blank, nor a control command, nor a shortcut
    invocation: its first byte is not [!] and not [@]. *)
Definition packetLine (line : string) : Prop :=
  match line with
  | EmptyString => False
  | String c _ => c <> "!"%char /\ c <> "@"%char
  end.

(** ** Substitution in a template, on its text *)

(** [r] with [s] in front of its text. *)
Definition prepend (s : string) (r : outcome string) : outcome string :=
  match r with
  | Ok x => Ok (s ++ x)
  | Err e => Err e
  | Panic => Panic
  end.

(** The substitution stated on the text of the template, without indices:
    what the template that follows the byte [prev] expands to with the
    arguments [args] of the invocation (the tokens after the shortcut
    name), numbered from 1:
    - a [$] that is not preceded by a backslash and is not the final
      character is read together with the byte [d] that follows it as the
      reference to argument number [d - '0'] (on bytes);
    - the reference is replaced by that argument, and fails with
      [InvalidArgumentIndex] when the number is 0 or exceeds the number
      of arguments, which is also the case of a byte [d] that is no digit
      (unless the invocation has that many arguments);
    - every other byte [c] is written as [string(c)]: unchanged when it
      is below [0x80], as the two bytes of [stringOfByte] otherwise. *)
Fixpoint substitute (prev : ascii) (template : string) (args : list string)
  : outcome string :=
  match template with
  | EmptyString => Ok EmptyString
  | String c rest =>
      match rest with
      | String d rest' =>
          if Ascii.eqb c "$" && negb (Ascii.eqb prev backslash) then
            match byteMinusZero d with
            | 0 => Err (InvalidArgumentIndex 0)
            | S j =>
                match args !! j with
                | Some arg => prepend arg (substitute d rest' args)
                | None => Err (InvalidArgumentIndex (S j))
                end
            end
          else prepend (stringOfByte c) (substitute c rest args)
      | EmptyString => Ok (stringOfByte c)
      end
  end.

(** ** The buffer and the counter *)

(** The outcome is the failure [RecursionLimitExceeded]. *)
Definition recursionError {A} (r : outcome A) : Prop :=
  match r with
  | Err RecursionLimitExceeded => True
  | _ => False
  end.

(** A computation that leaves the buffer and the counter alone, and does
    not fail with [RecursionLimitExceeded]. *)
Definition keepsQueue {A} (m : M A) : Prop :=
  forall w r w',
    m w = (r, w') ->
    shortcutNesting (fst w') = shortcutNesting (fst w) /\
    pendingShortcut (fst w') = pendingShortcut (fst w) /\
    ~ recursionError r.

(** The invariant of the loop: the counter is between 0 and 11, and at
    most 10 while an expansion is pending. *)
Definition queueInvariant (st : State) : Prop :=
  (0 <= shortcutNesting st <= 11)%Z /\
  (is_Some (pendingShortcut st) -> (shortcutNesting st <= 10)%Z).

(** [n] turns of the loop, as long as it goes on. *)
Fixpoint turns (env : Env) (n : nat) (w : World) : option World :=
  match n with
  | 0 => Some w
  | S n =>
      match loopBody env w with
      | Continue _ w' => turns env n w'
      | _ => None
      end
  end.

(** ** Example sessions *)

Definition demoEndPoint : ms.EndPoint := ms.mkEndPoint "mssh" 0.

(** A collaborator for the examples: the transport accepts every call and
    numbers every connection 7, the shortcut file is written without
    error, a timeout is never a number, and the fields of a shortcut
    invocation are its pieces between spaces (what [encoding/csv] answers
    on a line without quotes). *)
Definition demoEnv : Env :=
  mkEnv (fun s => Done (Split s " "))
        (fun _ => Failed 1)
        (fun _ _ => Done 7)
        (fun _ _ => Done tt)
        (fun _ _ => Done tt)
        (fun p _ _ => Done (ms.pElement p))
        (fun _ _ => Done tt)
        0.

Definition demoConnected : State :=
  set_EndPoint (Some demoEndPoint) (initialState ∅ []).

(** The session in which the shortcut [a] stands for [@a] and the
    operator types [@a]: after eleven turns the eleventh push has been
    rejected. *)
Definition recursiveStart : World :=
  (initialState (<["a" := "@a"]> ∅) ["@a"], []).

Definition recursiveEnd : World :=
  (mkState None 2000000000 "mssh" (<["a" := "@a"]> ∅) [] None 11 "-?-", []).

(** The same session after its first turn: the first expansion is
    pending. *)
Definition recursiveFirst : World :=
  (mkState None 2000000000 "mssh" (<["a" := "@a"]> ∅) [] (Some "@a") 1 "-?-", []).

(** The tenth expansion of the recursive shortcut is pending and the
    operator has typed [ping] since. *)
Definition recursiveTenth : World :=
  (mkState None 2000000000 "mssh" (<["a" := "@a"]> ∅) ["ping"] (Some "@a") 10
           "-?-", []).

(** ** The shortcut file *)

Definition newline : ascii := Ascii.ascii_of_nat 10.

(** What [ioutil.ReadFile("mssh-shortcuts.txt")] answers: an error for
    which [os.IsNotExist] holds, another error, or the bytes of the file. *)
Inductive fileRead : Type :=
  | FileMissing
  | FileError (code : nat)
  | FileContent (content : string).

(** The errors of [loadShortcuts]: the error of the read, or
    "Invalid shortcut definition: line (should be <name>:<definition>)". *)
Inductive loadError : Type :=
  | ReadFailed (code : nat)
  | InvalidShortcutDefinition (line : string).

(** The loop of [loadShortcuts] over the lines of the file, on the table
    filled so far; it stops at the first line that has no colon. *)
Fixpoint loadLines (lines : list string) (shortcuts : gmap string string)
  : option loadError * gmap string string :=
  match lines with
  | [] => (None, shortcuts)
  | line :: rest =>
      match line with
      | EmptyString => loadLines rest shortcuts (* len(line) > 0 fails *)
      | String _ _ =>
          match SplitN line ":" 2 with
          | name :: definition :: _ =>
              loadLines rest (<[name := definition]> shortcuts)
          | _ => (Some (InvalidShortcutDefinition line), shortcuts)
          end
      end
  end.

(** [state.loadShortcuts()], given what the read of the file answers:
    the error returned ([None] for [nil]) and the state left. *)
Definition loadShortcuts (file : fileRead) (st : State)
  : option loadError * State :=
  match file with
  | FileMissing => (None, st)
  | FileError code => (Some (ReadFailed code), st)
  | FileContent content =>
      let lines := Split content newline in
      let r := loadLines lines ∅ in
      (fst r, set_Shortcuts (snd r) st)
  end.

(** The state with which [main] enters its loop: the error of
    [loadShortcuts] is printed and the table is kept as the load left it. *)
Definition startState (file : fileRead) (input : list string) : State :=
  snd (loadShortcuts file (initialState ∅ input)).

(** [fmt.Sprintf("%v:%v\n", name, definition)], the record that
    [saveShortcuts] writes for one shortcut. *)
Definition shortcutRecord (name definition : string) : string :=
  name ++ String ":" (definition ++ String newline EmptyString).

(** The bytes [saveShortcuts] writes when its [range] over the table
    yields the shortcuts in the order [entries] (an order Go does not
    fix). *)
Fixpoint shortcutsFile (entries : list (string * string)) : string :=
  match entries with
  | [] => EmptyString
  | (name, definition) :: rest =>
      shortcutRecord name definition ++ shortcutsFile rest
  end.

(** The table after the assignments [table[name] = definition] for
    [entries], in their order. *)
Definition insertAll (entries : list (string * string))
    (shortcuts : gmap string string) : gmap string string :=
  fold_left (fun m e => <[fst e := snd e]> m) entries shortcuts.

(** A name and a definition that a record of the file can hold: no
    newline in either, and no colon in the name. *)
Definition storable (e : string * string) : Prop :=
  Contains (fst e) ":" = false /\ Contains (fst e) newline = false /\
  Contains (snd e) newline = false.

(** ** Packet lines as trees *)

(** What a well-formed packet line holds behind its type: plain tokens
    and child elements, the latter opened by [<name] ([attached]) or by a
    lone [<] and the name. *)
#[warnings="-register-all"]
Inductive item : Type :=
  | Plain (token : string)
  | Sub (attached : bool) (name : string) (body : list item).

Definition openTokens (attached : bool) (name : string) : list string :=
  if attached then [String "<" name] else ["<"; name].

(** The tokens of an item, and of a sequence of items. *)
Fixpoint itemTokens (i : item) : list string :=
  match i with
  | Plain token => [token]
  | Sub attached name body =>
      openTokens attached name ++ flat_map itemTokens body ++ [">"]
  end.

Definition itemsTokens (l : list item) : list string := flat_map itemTokens l.

(** The value a plain token stands for; [None] for an attribute. *)
Definition tokenValue (token : string) : option string :=
  match token with
  | EmptyString => None
  | String c _ =>
      if Ascii.eqb c dquote then
        Some (substring 1 (String.length token - 2) token)
      else if Contains token "=" then None
      else Some token
  end.

(** The element an item adds to, and the element a sequence of items
    builds from the element it starts with. *)
Fixpoint applyItem (i : item) (el : ms.Element) : ms.Element :=
  match i with
  | Plain token => plainUpdate token el
  | Sub _ name body =>
      ms.appendChild
        (ms.ChildElement
           (fold_left (fun e x => applyItem x e) body (ms.newElement name)))
        el
  end.

Definition applyItems (l : list item) (el : ms.Element) : ms.Element :=
  fold_left (fun e x => applyItem x e) l el.

(** The child an item contributes, if any. *)
Definition itemChild (i : item) : option ms.Child :=
  match i with
  | Plain token => ms.ChildValue <$> tokenValue token
  | Sub _ name body =>
      Some (ms.ChildElement (applyItems body (ms.newElement name)))
  end.

(** Well-formed items: plain tokens are plain, and an attached name is not
    empty. *)
#[warnings="-register-all"]
Inductive wfItem : item -> Prop :=
  | wf_Plain token : plainToken token -> wfItem (Plain token)
  | wf_Sub attached name body :
      (attached = true -> name <> EmptyString) ->
      Forall wfItem body ->
      wfItem (Sub attached name body).

(** [reaches tail tokens]: parsing [tokens], the cursor comes to stand in
    front of [tail], at some depth of nesting, after plain tokens, closed
    children and openings of children only. *)
Inductive reaches (tail : list string) : list string -> Prop :=
  | reaches_here : reaches tail tail
  | reaches_plain t ts :
      plainToken t -> reaches tail ts -> reaches tail (t :: ts)
  | reaches_child o name body ts :
      opening o name -> items body -> reaches tail ts ->
      reaches tail (o ++ body ++ ">" :: ts)
  | reaches_open o name ts :
      opening o name -> reaches tail ts -> reaches tail (o ++ ts).

(** ** Templates without substitution *)

(** [inert prev template]: behind the byte [prev], every [$] of the
    template is preceded by a backslash or is its final byte. *)
Fixpoint inert (prev : ascii) (template : string) : bool :=
  match template with
  | EmptyString => true
  | String c rest =>
      match rest with
      | EmptyString => true
      | String _ _ =>
          negb (Ascii.eqb c "$" && negb (Ascii.eqb prev backslash))
          && inert c rest
      end
  end.

(** The text in which every byte [c] is written as [string(c)]: what the
    loop makes of a text it copies. *)
Fixpoint reencode (s : string) : string :=
  match s with
  | EmptyString => EmptyString
  | String c rest => stringOfByte c ++ reencode rest
  end.

(** Every byte of the text is below [0x80]. *)
Fixpoint sevenBit (s : string) : bool :=
  match s with
  | EmptyString => true
  | String c rest => (N_of_ascii c <? 128)%N && sevenBit rest
  end.

(** ** Leaving the loop *)

(** The outcome is the failure [ErrQuit]. *)
Definition quitError {A} (r : outcome A) : Prop :=
  match r with
  | Err ErrQuit => True
  | _ => False
  end.

(** A computation that never fails with [ErrQuit]. *)
Definition neverQuits {A} (m : M A) : Prop :=
  forall w r w', m w = (r, w') -> ~ quitError r.

(** * Properties *)

(** ** Strings *)

Lemma Split_not_nil s sep : Split s sep <> [].
Proof.
  destruct s as [|c s]; simpl; [discriminate|].
  destruct (Ascii.eqb c sep); [discriminate|].
  destruct (Split s sep); discriminate.
Qed.

(** Splitting distributes over a separator: the pieces of [a sep b] are the
    pieces of [a] followed by the pieces of [b]. *)
Lemma Split_app_sep a b sep :
  Split (a ++ String sep b) sep = (Split a sep ++ Split b sep)%list.
Proof.
  induction a as [|c a IH]; simpl.
  - rewrite Ascii.eqb_refl. reflexivity.
  - destruct (Ascii.eqb c sep); [now rewrite IH|].
    rewrite IH. destruct (Split a sep) eqn:E; [now apply Split_not_nil in E|].
    reflexivity.
Qed.

Lemma Split_no_sep s sep : Contains s sep = false -> Split s sep = [s].
Proof.
  induction s as [|c s IH]; simpl; [reflexivity|].
  destruct (Ascii.eqb c sep); [discriminate|].
  intros H. now rewrite (IH H).
Qed.

(** A token that contains the separator splits into two fields at least,
    so that [fields[1]] exists. *)
Lemma Split_two_fields s sep :
  Contains s sep = true -> exists f0 f1 fs, Split s sep = f0 :: f1 :: fs.
Proof.
  induction s as [|c s IH]; simpl; [discriminate|].
  destruct (Ascii.eqb c sep).
  - intros _. destruct (Split s sep) as [|f1 fs] eqn:E; [now apply Split_not_nil in E|].
    now exists EmptyString, f1, fs.
  - intros H. destruct (IH H) as (f0 & f1 & fs & ->). now exists (String c f0), f1, fs.
Qed.

Lemma lastByte_app_byte s c : lastByte (s ++ String c EmptyString) = Some c.
Proof.
  induction s as [|d s IH]; simpl; [reflexivity|].
  rewrite IH. destruct (s ++ String c EmptyString) eqn:E; [|reflexivity].
  destruct s; discriminate.
Qed.

Lemma TrimRight_lastByte s c cutset :
  lastByte s = Some c -> existsb (Ascii.eqb c) cutset = false ->
  TrimRight s cutset = s.
Proof.
  intros Hl Hc. induction s as [|d s IH]; [reflexivity|].
  destruct s as [|d' s'].
  - simpl in *. injection Hl as ->. now rewrite Hc.
  - change (lastByte (String d (String d' s'))) with (lastByte (String d' s')) in Hl.
    specialize (IH Hl).
    change (TrimRight (String d (String d' s')) cutset)
      with (match TrimRight (String d' s') cutset with
            | EmptyString =>
                if existsb (Ascii.eqb d) cutset then EmptyString
                else String d EmptyString
            | r => String d r
            end).
    now rewrite IH.
Qed.

Lemma length_app_string (a b : string) :
  String.length (a ++ b) = String.length a + String.length b.
Proof. induction a as [|c a IH]; simpl; [reflexivity|now rewrite IH]. Qed.

Lemma substring_0_app (a b : string) : substring 0 (String.length a) (a ++ b) = a.
Proof. induction a as [|c a IH]; simpl; [now destruct b|now rewrite IH]. Qed.

Lemma quoted_length s : String.length (quoted s) = S (S (String.length s)).
Proof. unfold quoted. simpl. rewrite length_app_string. simpl. lia. Qed.

Lemma quoted_lastByte s : lastByte (quoted s) = Some dquote.
Proof.
  unfold quoted.
  change (lastByte (String dquote (s ++ String dquote EmptyString)))
    with (match s ++ String dquote EmptyString with
          | EmptyString => Some dquote
          | _ => lastByte (s ++ String dquote EmptyString)
          end).
  rewrite lastByte_app_byte. now destruct (s ++ String dquote EmptyString).
Qed.

(** Stripping the first and the last byte of [quoted s] gives [s] back. *)
Lemma quoted_strip s :
  substring 1 (String.length (quoted s) - 2) (quoted s) = s.
Proof.
  rewrite quoted_length. replace (S (S (String.length s)) - 2) with (String.length s) by lia.
  unfold quoted. simpl. apply substring_0_app.
Qed.

(** ** The element parser: one token at a time *)

Lemma parseTokens_nil fuel el :
  parseTokens (S fuel) [] el = Some (Ok ([], el)).
Proof. reflexivity. Qed.

Lemma parseTokens_close fuel rest el :
  parseTokens (S fuel) (">" :: rest) el = Some (Ok (">" :: rest, el)).
Proof. reflexivity. Qed.

(** A quoted token becomes a literal child, without its quotes. *)
Lemma parseTokens_quoted fuel s rest el :
  parseTokens (S fuel) (quoted s :: rest) el =
  parseTokens fuel rest (ms.appendChild (ms.ChildValue s) el).
Proof.
  cbn [parseTokens].
  pose proof (quoted_lastByte s) as Hl.
  pose proof (quoted_strip s) as Hs.
  pose proof (quoted_length s) as Hn.
  unfold quoted in *.
  set (t := String dquote (s ++ String dquote EmptyString)) in *.
  assert (String.eqb t ">" = false) as -> by reflexivity.
  unfold t at 1.
  assert (Ascii.eqb dquote "<" = false) as -> by reflexivity.
  assert (Ascii.eqb dquote dquote = true) as -> by reflexivity.
  cbn [negb andb]. fold t.
  rewrite Hl, Hs, Hn.
  rewrite bool_decide_true by reflexivity. reflexivity.
Qed.

Lemma parseTokens_plain fuel token rest el :
  plainToken token ->
  parseTokens (S fuel) (token :: rest) el =
  parseTokens fuel rest (plainUpdate token el).
Proof.
  intros [s|c tail Hq Hlt Hgt].
  - rewrite parseTokens_quoted. pose proof (quoted_strip s) as Hs.
    unfold plainUpdate, quoted in *.
    assert (Ascii.eqb dquote dquote = true) as -> by reflexivity.
    now rewrite Hs.
  - cbn [parseTokens plainUpdate].
    apply String.eqb_neq in Hgt. rewrite Hgt.
    apply Ascii.eqb_neq in Hq, Hlt. rewrite Hq, Hlt. cbn [negb andb].
    destruct (Contains (String c tail) "=") eqn:HC; [|reflexivity].
    destruct (Split_two_fields _ _ HC) as (f0 & f1 & fs & ->). reflexivity.
Qed.

(** ** The element parser: fuel *)

(** What [parseTokens] leaves is not longer than what it was given. *)
Lemma parseTokens_length fuel :
  forall tokens el rest el',
    parseTokens fuel tokens el = Some (Ok (rest, el')) ->
    length rest <= length tokens.
Proof.
  induction fuel as [|fuel IH]; intros tokens el rest el' H; [discriminate|].
  destruct tokens as [|token tl]; cbn [parseTokens] in H.
  { injection H as <- <-. reflexivity. }
  destruct (String.eqb token ">"). { injection H as <- <-. reflexivity. }
  destruct token as [|c0 tail]; [discriminate|].
  cbn [length].
  destruct (Ascii.eqb c0 "<").
  - destruct (if Nat.ltb 1 (String.length (String c0 tail)) then Some (tail, tl)
              else match tl with [] => None | name :: rest' => Some (name, rest') end)
      as [[name rest1]|] eqn:Hnamed; [|discriminate].
    assert (length rest1 <= length tl) as Hr1.
    { destruct (Nat.ltb 1 (String.length (String c0 tail))).
      - injection Hnamed as _ <-. reflexivity.
      - destruct tl; [discriminate|]. injection Hnamed as _ <-. simpl. lia. }
    destruct (parseTokens fuel rest1 (ms.newElement name)) as [[[rest2 child]|e|]|] eqn:Hc;
      try discriminate.
    apply IH in Hc.
    destruct rest2 as [|t rest3]; [discriminate|].
    destruct (String.eqb t ">"); [|discriminate].
    apply IH in H. simpl in Hc. lia.
  - destruct (negb (Ascii.eqb c0 dquote) && Contains (String c0 tail) "=").
    + destruct (Split (String c0 tail) "=") as [|f0 [|f1 fs]]; try discriminate.
      apply IH in H. lia.
    + destruct (Ascii.eqb c0 dquote).
      * destruct (negb (bool_decide (lastByte (String c0 tail) = Some dquote)));
          [discriminate|].
        destruct (Nat.ltb (String.length (String c0 tail) - 1) 1); [discriminate|].
        apply IH in H. lia.
      * apply IH in H. lia.
Qed.

(** With more fuel than tokens the parser always comes to a result. *)
Lemma parseTokens_fuel_enough fuel :
  forall tokens el, length tokens < fuel -> parseTokens fuel tokens el <> None.
Proof.
  induction fuel as [|fuel IH]; intros tokens el Hlen; [lia|].
  destruct tokens as [|token tl]; cbn [parseTokens]; [discriminate|].
  destruct (String.eqb token ">"); [discriminate|].
  destruct token as [|c0 tail]; [discriminate|].
  cbn [length] in Hlen.
  destruct (Ascii.eqb c0 "<").
  - destruct (if Nat.ltb 1 (String.length (String c0 tail)) then Some (tail, tl)
              else match tl with [] => None | name :: rest' => Some (name, rest') end)
      as [[name rest1]|] eqn:Hnamed; [|discriminate].
    assert (length rest1 <= length tl) as Hr1.
    { destruct (Nat.ltb 1 (String.length (String c0 tail))).
      - injection Hnamed as _ <-. reflexivity.
      - destruct tl; [discriminate|]. injection Hnamed as _ <-. simpl. lia. }
    destruct (parseTokens fuel rest1 (ms.newElement name)) as [[[rest2 child]|e|]|] eqn:Hc;
      try discriminate.
    + apply parseTokens_length in Hc.
      destruct rest2 as [|t rest3]; [discriminate|].
      destruct (String.eqb t ">"); [|discriminate].
      apply IH. simpl in Hc. lia.
    + exfalso. revert Hc. apply IH. lia.
  - destruct (negb (Ascii.eqb c0 dquote) && Contains (String c0 tail) "=").
    + destruct (Split (String c0 tail) "=") as [|f0 [|f1 fs]]; try discriminate.
      apply IH. lia.
    + destruct (Ascii.eqb c0 dquote).
      * destruct (negb (bool_decide (lastByte (String c0 tail) = Some dquote)));
          [discriminate|].
        destruct (Nat.ltb (String.length (String c0 tail) - 1) 1); [discriminate|].
        apply IH. lia.
      * apply IH. lia.
Qed.

(** A result does not depend on the fuel that was left over. *)
Lemma parseTokens_fuel_mono fuel :
  forall fuel' tokens el r,
    parseTokens fuel tokens el = Some r -> fuel <= fuel' ->
    parseTokens fuel' tokens el = Some r.
Proof.
  induction fuel as [|fuel IH]; intros fuel' tokens el r H Hle; [discriminate|].
  destruct fuel' as [|fuel']; [lia|].
  assert (fuel <= fuel') as Hle' by lia.
  destruct tokens as [|token tl]; cbn [parseTokens] in *; [assumption|].
  destruct (String.eqb token ">"); [assumption|].
  destruct token as [|c0 tail]; [assumption|].
  destruct (Ascii.eqb c0 "<").
  - destruct (if Nat.ltb 1 (String.length (String c0 tail)) then Some (tail, tl)
              else match tl with [] => None | name :: rest' => Some (name, rest') end)
      as [[name rest1]|]; [|assumption].
    destruct (parseTokens fuel rest1 (ms.newElement name)) as [r1|] eqn:Hc;
      [|discriminate].
    rewrite (IH fuel' _ _ _ Hc Hle').
    destruct r1 as [[rest2 child]|e|]; try assumption.
    destruct rest2 as [|t rest3]; [assumption|].
    destruct (String.eqb t ">"); [|assumption].
    now apply IH.
  - destruct (negb (Ascii.eqb c0 dquote) && Contains (String c0 tail) "=").
    + destruct (Split (String c0 tail) "=") as [|f0 [|f1 fs]]; try assumption.
      now apply IH.
    + destruct (Ascii.eqb c0 dquote).
      * destruct (negb (bool_decide (lastByte (String c0 tail) = Some dquote)));
          [assumption|].
        destruct (Nat.ltb (String.length (String c0 tail) - 1) 1); [assumption|].
        now apply IH.
      * now apply IH.
Qed.

(** The parser has three errors of its own and no other. *)
Lemma parseTokens_errors fuel :
  forall tokens el e,
    parseTokens fuel tokens el = Some (Err e) ->
    e = MissingChildName \/ e = UnterminatedChildElement \/
    e = UnterminatedStringLiteral.
Proof.
  induction fuel as [|fuel IH]; intros tokens el e H; [discriminate|].
  destruct tokens as [|token tl]; cbn [parseTokens] in H; [discriminate|].
  destruct (String.eqb token ">"); [discriminate|].
  destruct token as [|c0 tail]; [discriminate|].
  destruct (Ascii.eqb c0 "<").
  - destruct (if Nat.ltb 1 (String.length (String c0 tail)) then Some (tail, tl)
              else match tl with [] => None | name :: rest' => Some (name, rest') end)
      as [[name rest1]|].
    2:{ injection H as <-. now left. }
    destruct (parseTokens fuel rest1 (ms.newElement name)) as [[[rest2 child]|e'|]|] eqn:Hc;
      try discriminate.
    + destruct rest2 as [|t rest3]. { injection H as <-. right; now left. }
      destruct (String.eqb t ">"); [now apply IH in H|].
      injection H as <-. right; now left.
    + injection H as <-. now apply IH in Hc.
  - destruct (negb (Ascii.eqb c0 dquote) && Contains (String c0 tail) "=").
    + destruct (Split (String c0 tail) "=") as [|f0 [|f1 fs]]; try discriminate.
      now apply IH in H.
    + destruct (Ascii.eqb c0 dquote).
      * destruct (negb (bool_decide (lastByte (String c0 tail) = Some dquote))).
        { injection H as <-. right; now right. }
        destruct (Nat.ltb (String.length (String c0 tail) - 1) 1); [discriminate|].
        now apply IH in H.
      * now apply IH in H.
Qed.

(** ** The packet parser *)

Lemma parsePacketCommand_tokens endPoint line :
  parsePacketCommand endPoint line =
  match packetTokens line with
  | None => Panic
  | Some (_, []) => Err MissingCommandType
  | Some (isRequest, type :: rest) =>
      match parseTokens (S (length rest)) rest (rootElement isRequest type) with
      | Some (Ok (_, element)) => Ok (ms.mkPacket endPoint element)
      | Some (Err e) => Err e
      | Some Panic => Panic
      | None => Panic
      end
  end.
Proof.
  unfold parsePacketCommand, packetTokens, rootElement.
  destruct (Trim line [" "%char; tab]) as [|c0 tail]; [reflexivity|].
  cbv zeta.
  destruct (Split (if Ascii.eqb c0 "?" then Trim tail [" "%char; tab]
                   else String c0 tail) " "); reflexivity.
Qed.

(** The tokens of a line always include the type token. *)
Lemma packetTokens_not_nil line isRequest :
  packetTokens line <> Some (isRequest, []).
Proof.
  unfold packetTokens. destruct (Trim line [" "%char; tab]); [discriminate|].
  intros H. injection H as _ H. now apply Split_not_nil in H.
Qed.

(** [parsePacketCommand] never answers [None] to [parseTokens]: the panics
    it returns are panics of the Go code. *)
Lemma parsePacketCommand_fuel rest el :
  parseTokens (S (length rest)) rest el <> None.
Proof. apply parseTokens_fuel_enough. lia. Qed.

(** ** The element parser on the grammar *)

Lemma opening_length o name : opening o name -> 1 <= length o.
Proof. intros []; simpl; lia. Qed.

Lemma parseTokens_open fuel o name rest el :
  opening o name ->
  parseTokens (S fuel) (o ++ rest) el =
  match parseTokens fuel rest (ms.newElement name) with
  | None => None
  | Some Panic => Some Panic
  | Some (Err e) => Some (Err e)
  | Some (Ok (rest2, childElement)) =>
      match rest2 with
      | [] => Some (Err UnterminatedChildElement)
      | t :: rest3 =>
          if String.eqb t ">" then
            parseTokens fuel rest3 (ms.appendChild (ms.ChildElement childElement) el)
          else Some (Err UnterminatedChildElement)
      end
  end.
Proof.
  intros [name' Hne|name'].
  - destruct name' as [|c n]; [contradiction|]. reflexivity.
  - reflexivity.
Qed.

(** Well-formed items are consumed up to the end of the tokens or to the
    [>] that follows them. *)
Lemma parseTokens_items ts :
  items ts ->
  forall fuel el rest,
    rest = [] \/ (exists r, rest = ">" :: r) ->
    length (ts ++ rest) < fuel ->
    exists el', parseTokens fuel (ts ++ rest) el = Some (Ok (rest, el')).
Proof.
  induction 1 as [|t ts Ht _ IH|o name body ts Ho _ IHbody _ IHts];
    intros fuel el rest Hrest Hlen;
    (destruct fuel as [|fuel]; [lia|]).
  - exists el. destruct Hrest as [->|[r ->]]; reflexivity.
  - cbn [app]. rewrite (parseTokens_plain _ _ _ _ Ht).
    apply IH; [assumption|]. simpl in Hlen. lia.
  - pose proof (opening_length _ _ Ho) as Ho1.
    replace ((o ++ body ++ ">" :: ts) ++ rest)%list
      with (o ++ (body ++ ">" :: (ts ++ rest)))%list in *
      by (now rewrite <- !app_assoc).
    rewrite !length_app in Hlen. cbn [length] in Hlen. rewrite length_app in Hlen.
    rewrite (parseTokens_open _ _ _ _ _ Ho).
    destruct (IHbody fuel (ms.newElement name) (">" :: (ts ++ rest))%list)
      as [child ->].
    { right; eauto. }
    { rewrite length_app. cbn [length]. rewrite length_app. lia. }
    cbn. apply IHts; [assumption|]. rewrite length_app. lia.
Qed.

(** A child element that is never closed is reported as such. *)
Lemma parseTokens_unclosed ts :
  unclosed ts ->
  forall fuel el,
    length ts < fuel ->
    parseTokens fuel ts el = Some (Err UnterminatedChildElement).
Proof.
  induction 1 as [o name body Ho Hbody|o name body Ho _ IH|t ts Ht _ IH
                 |o name body ts Ho Hbody _ IH];
    intros fuel el Hlen; (destruct fuel as [|fuel]; [lia|]).
  - pose proof (opening_length _ _ Ho) as Ho1. rewrite length_app in Hlen.
    rewrite (parseTokens_open _ _ _ _ _ Ho).
    destruct (parseTokens_items _ Hbody fuel (ms.newElement name) [])
      as [child Hc]; [now left| rewrite app_nil_r; lia |].
    rewrite app_nil_r in Hc. now rewrite Hc.
  - pose proof (opening_length _ _ Ho) as Ho1. rewrite length_app in Hlen.
    rewrite (parseTokens_open _ _ _ _ _ Ho).
    rewrite IH by lia. reflexivity.
  - rewrite (parseTokens_plain _ _ _ _ Ht). apply IH. simpl in Hlen. lia.
  - pose proof (opening_length _ _ Ho) as Ho1.
    rewrite !length_app in Hlen. cbn [length] in Hlen.
    rewrite (parseTokens_open _ _ _ _ _ Ho).
    destruct (parseTokens_items _ Hbody fuel (ms.newElement name) (">" :: ts))
      as [child ->]; [right; eauto| rewrite length_app; cbn [length]; lia |].
    cbn. apply IH. lia.
Qed.

(** ** Literal packet lines in [Execute] *)

(** While connected, a packet line is parsed and the packet is sent or
    submitted; an error or a panic of the parser ends the execution with
    the world as it was. *)
Lemma Execute_packetLine env line st tr endPoint :
  packetLine line -> EndPoint st = Some endPoint ->
  Execute env line (st, tr) =
  match parsePacketCommand endPoint line with
  | Ok packet =>
      if negb (String.eqb (ms.Name (ms.pElement packet)) "Request") then
        call (EvSend packet) (send env packet) (st, tr)
      else
        (_ ← call (EvSubmit packet (Timeout st)) (submit env packet (Timeout st));
         ret tt) (st, tr)
  | Err e => (Err e, (st, tr))
  | Panic => (Panic, (st, tr))
  end.
Proof.
  destruct line as [|c rest]; [contradiction|]. intros [H1 H2] Hep.
  apply Ascii.eqb_neq in H1, H2.
  unfold Execute. rewrite H1, H2.
  unfold mbind, M_bind, bind, get, pure. cbn [fst snd]. rewrite Hep.
  destruct (parsePacketCommand endPoint (String c rest)) as [packet|e|];
    try reflexivity.
  now destruct (negb (String.eqb (ms.Name (ms.pElement packet)) "Request")).
Qed.

(** Whatever the parser rejects a packet line for, the failed execution
    leaves the state and the trace as they were. *)
Lemma Execute_parse_failure env line st tr endPoint e :
  packetLine line -> EndPoint st = Some endPoint ->
  parsePacketCommand endPoint line = Err e ->
  Execute env line (st, tr) = (Err e, (st, tr)).
Proof.
  intros Hline Hep Hp.
  now rewrite (Execute_packetLine env line st tr endPoint Hline Hep), Hp.
Qed.

Lemma Execute_disconnected env line st tr :
  packetLine line -> EndPoint st = None ->
  Execute env line (st, tr) = (Err NotConnected, (st, tr)).
Proof.
  destruct line as [|c rest]; [contradiction|]. intros [H1 H2] Hep.
  apply Ascii.eqb_neq in H1, H2.
  unfold Execute. rewrite H1, H2.
  unfold mbind, M_bind, bind, get, fail. cbn [fst snd]. now rewrite Hep.
Qed.

Lemma append_String c (a b : string) : String c a ++ b = String c (a ++ b).
Proof. reflexivity. Qed.

Lemma append_assoc_string (a b c : string) : (a ++ b) ++ c = a ++ (b ++ c).
Proof.
  induction a as [|x a IH]; [reflexivity|].
  rewrite !append_String. now f_equal.
Qed.

Lemma Contains_app a b sep :
  Contains (a ++ b) sep = Contains a sep || Contains b sep.
Proof.
  induction a as [|c a IH]; simpl; [reflexivity|].
  now destruct (Ascii.eqb c sep).
Qed.

Lemma Contains_quoted s : Contains s " " = false -> Contains (quoted s) " " = false.
Proof.
  intros H. unfold quoted.
  change (Contains (String dquote (s ++ String dquote EmptyString)) " ")
    with (Contains (s ++ String dquote EmptyString) " ").
  rewrite Contains_app, H. reflexivity.
Qed.

(** A line that starts with a byte outside the cut set and ends with a
    quote is left as it is by [Trim]. *)
Lemma Trim_word_quoted c t s :
  c <> " "%char -> c <> tab ->
  Trim (String c t ++ String " " (quoted s)) [" "%char; tab] =
  String c t ++ String " " (quoted s).
Proof.
  intros H1 H2. apply Ascii.eqb_neq in H1, H2.
  unfold Trim. rewrite append_String.
  cbn [TrimLeft existsb]. rewrite H1, H2. cbn [orb].
  apply TrimRight_lastByte with (c := dquote); [|reflexivity].
  unfold quoted.
  replace (String c (t ++ String " " (String dquote (s ++ String dquote EmptyString))))
    with (String c (t ++ String " " (String dquote s)) ++ String dquote EmptyString).
  - apply lastByte_app_byte.
  - rewrite append_String. f_equal. now rewrite append_assoc_string.
Qed.

(** ** Blank lines *)

(** A line of spaces and tabs only is trimmed to the empty string, on
    which [command[0]] panics. *)
Lemma TrimLeft_blank line :
  Forall (fun c => c = " "%char \/ c = tab) (list_ascii_of_string line) ->
  TrimLeft line [" "%char; tab] = EmptyString.
Proof.
  induction line as [|c line IH]; [reflexivity|].
  cbn [list_ascii_of_string]. intros H. inversion_clear H as [|? ? Hc Hrest].
  cbn [TrimLeft existsb].
  destruct Hc as [-> | ->]; cbn; now apply IH.
Qed.

Lemma parsePacketCommand_blank endPoint line :
  Forall (fun c => c = " "%char \/ c = tab) (list_ascii_of_string line) ->
  parsePacketCommand endPoint line = Panic.
Proof.
  intros H. unfold parsePacketCommand, Trim. now rewrite (TrimLeft_blank _ H).
Qed.

(** ** The substitution loop *)

Lemma append_nil_r (s : string) : s ++ EmptyString = s.
Proof. induction s as [|c s IH]; [reflexivity|]. rewrite append_String. now f_equal. Qed.

Lemma prepend_prepend a b r : prepend a (prepend b r) = prepend (a ++ b) r.
Proof. destruct r; simpl; [|reflexivity..]. now rewrite append_assoc_string. Qed.

Lemma get_length_app (a : string) c (b : string) :
  String.get (String.length a) (a ++ String c b) = Some c.
Proof. induction a as [|x a IH]; [reflexivity|]. rewrite append_String. exact IH. Qed.

Lemma append_byte_String (a : string) c (b : string) :
  (a ++ String c EmptyString) ++ b = a ++ String c b.
Proof. now rewrite append_assoc_string. Qed.

Lemma length_append_byte (a : string) c :
  String.length (a ++ String c EmptyString) = S (String.length a).
Proof. rewrite length_app_string. simpl. lia. Qed.

(** The loop of [ExpandShortcut], once past the first byte, computes the
    substitution: at index [i] with the bytes [pre prev] behind it and the
    text [result] built, it returns [result] followed by the substitution
    of what is left. *)
Lemma expandLoop_substitute name args fuel :
  forall pre prev suffix result,
    String.length suffix < fuel ->
    expandLoop fuel (pre ++ String prev suffix) (name :: args)
      (S (String.length pre)) result
    = Some (prepend result (substitute prev suffix args)).
Proof.
  induction fuel as [|fuel IH]; intros pre prev suffix result Hlen; [lia|].
  cbn [expandLoop].
  assert (String.length (pre ++ String prev suffix)
          = S (String.length pre) + String.length suffix) as Hl.
  { rewrite length_app_string. simpl. lia. }
  rewrite Hl.
  destruct suffix as [|c rest].
  { replace (Nat.ltb (S (String.length pre)) (S (String.length pre) + String.length ""))
      with false by (symmetry; apply Nat.ltb_ge; simpl; lia).
    simpl. now rewrite append_nil_r. }
  replace (Nat.ltb (S (String.length pre))
             (S (String.length pre) + String.length (String c rest)))
    with true by (symmetry; apply Nat.ltb_lt; simpl; lia).
  assert (String.get (S (String.length pre)) (pre ++ String prev (String c rest))
          = Some c) as ->.
  { rewrite <- append_byte_String, <- length_append_byte with (c := prev).
    apply get_length_app. }
  replace (S (String.length pre) - 1) with (String.length pre) by lia.
  rewrite get_length_app.
  assert (bool_decide (Some prev = Some backslash) = Ascii.eqb prev backslash) as ->.
  { destruct (Ascii.eqb_spec prev backslash) as [->|Hne].
    - now apply bool_decide_eq_true.
    - apply bool_decide_eq_false. congruence. }
  change (Nat.ltb 0 (S (String.length pre))) with true. rewrite andb_true_r.
  (* the next iteration starts behind [pre prev] *)
  assert (forall result',
            expandLoop fuel (pre ++ String prev (String c rest)) (name :: args)
              (S (String.length pre) + 1) result'
            = Some (prepend result' (substitute c rest args))) as Hnext.
  { intros result'. rewrite <- append_byte_String.
    replace (S (String.length pre) + 1)
      with (S (String.length (pre ++ String prev EmptyString)))
      by (rewrite length_append_byte; lia).
    apply IH. simpl in Hlen. lia. }
  destruct rest as [|d rest'].
  { replace (Nat.ltb (S (String.length pre))
               (S (String.length pre) + String.length (String c "") - 1))
      with false by (symmetry; apply Nat.ltb_ge; simpl; lia).
    rewrite !andb_false_r. rewrite Hnext. cbn [substitute prepend].
    now rewrite append_nil_r. }
  replace (Nat.ltb (S (String.length pre))
             (S (String.length pre) + String.length (String c (String d rest')) - 1))
    with true by (symmetry; apply Nat.ltb_lt; simpl; lia).
  rewrite andb_true_r.
  cbn [substitute].
  destruct (Ascii.eqb c "$" && negb (Ascii.eqb prev backslash)) eqn:Hsub.
  2:{ rewrite Hnext. now rewrite prepend_prepend. }
  assert (String.get (S (String.length pre) + 1)
            (pre ++ String prev (String c (String d rest'))) = Some d) as ->.
  { rewrite <- append_byte_String, <- append_byte_String.
    replace (S (String.length pre) + 1)
      with (String.length ((pre ++ String prev EmptyString) ++ String c EmptyString))
      by (rewrite !length_append_byte; lia).
    apply get_length_app. }
  destruct (byteMinusZero d) as [|j]; [reflexivity|].
  change (Nat.ltb (S j) 1) with false.
  change (Nat.leb (length (name :: args)) (S j)) with (Nat.leb (length args) j).
  cbn [orb].
  destruct (args !! j) as [arg|] eqn:Harg.
  - apply lookup_lt_Some in Harg as Hj.
    replace (Nat.leb (length args) j) with false
      by (symmetry; apply Nat.leb_gt; lia).
    change ((name :: args) !! S j) with (args !! j). rewrite Harg.
    rewrite <- append_byte_String, <- append_byte_String.
    replace (S (String.length pre) + 1 + 1)
      with (S (String.length ((pre ++ String prev EmptyString) ++ String c EmptyString)))
      by (rewrite !length_append_byte; lia).
    rewrite IH by (simpl in Hlen; lia).
    now rewrite prepend_prepend.
  - apply lookup_ge_None in Harg.
    replace (Nat.leb (length args) j) with true
      by (symmetry; apply Nat.leb_le; lia).
    reflexivity.
Qed.

(** The first byte of a template is written as [string(c)] by the loop
    whatever it is (the test [i > 0] fails on it); the substitution starts
    behind it. *)
Lemma expandTemplate_substitute c0 rest name args :
  expandTemplate (String c0 rest) (name :: args)
  = prepend (stringOfByte c0) (substitute c0 rest args).
Proof.
  unfold expandTemplate. cbn [expandLoop].
  change (Nat.ltb 0 (String.length (String c0 rest))) with true.
  change (String.get 0 (String c0 rest)) with (Some c0).
  cbv beta iota.
  change (Nat.ltb 0 0) with false. rewrite andb_false_r. cbn [andb].
  rewrite (expandLoop_substitute name args _ EmptyString c0 rest)
    by (simpl; lia).
  reflexivity.
Qed.

Lemma substitute_unfold prev c d rest' args :
  substitute prev (String c (String d rest')) args =
  if Ascii.eqb c "$" && negb (Ascii.eqb prev backslash) then
    match byteMinusZero d with
    | 0 => Err (InvalidArgumentIndex 0)
    | S j =>
        match args !! j with
        | Some arg => prepend arg (substitute d rest' args)
        | None => Err (InvalidArgumentIndex (S j))
        end
    end
  else prepend (stringOfByte c) (substitute c (String d rest') args).
Proof. reflexivity. Qed.

(** The expansion has one error and no other. *)
Lemma substitute_errors args :
  forall template prev e,
    substitute prev template args = Err e -> exists k, e = InvalidArgumentIndex k.
Proof.
  assert (forall s r e, prepend s r = Err e -> r = Err e) as Hpre.
  { intros s [x|e'|] e H; simpl in H; congruence. }
  intros template. remember (String.length template) as n eqn:Hn.
  revert template Hn.
  induction n as [n IHn] using lt_wf_ind. intros template -> prev e H.
  assert (forall t p e', String.length t < String.length template ->
                         substitute p t args = Err e' ->
                         exists k, e' = InvalidArgumentIndex k) as IH.
  { intros t p e' Hlt Ht. exact (IHn _ Hlt t eq_refl p e' Ht). }
  clear IHn.
  destruct template as [|c [|d rest']]; try discriminate.
  rewrite substitute_unfold in H.
  destruct (Ascii.eqb c "$" && negb (Ascii.eqb prev backslash)).
  - destruct (byteMinusZero d) as [|j]; [injection H as <-; eauto|].
    destruct (args !! j); [|injection H as <-; eauto].
    apply Hpre in H. apply IH in H; [assumption|]. simpl. lia.
  - apply Hpre in H. apply IH in H; [assumption|]. simpl. lia.
Qed.

Lemma expandTemplate_errors shortcut name args e :
  expandTemplate shortcut (name :: args) = Err e ->
  exists k, e = InvalidArgumentIndex k.
Proof.
  destruct shortcut as [|c0 rest]; [discriminate|].
  rewrite expandTemplate_substitute.
  destruct (substitute c0 rest args) as [x|e'|] eqn:E; simpl; try discriminate.
  intros H. injection H as <-. now apply substitute_errors in E.
Qed.

(** ** Connecting *)

(** What [connect] does when a connection is active: it dials first; a
    failed dial leaves the old connection open and in place; after a
    successful dial the old connection is closed, and the handle is
    replaced when the close has succeeded and cleared when it has failed. *)
Lemma connect_when_connected env address st tr old :
  EndPoint st = Some old ->
  connect env address (st, tr) =
  match dial env address tr with
  | Failed code => (Err (External code), (st, (tr ++ [EvDial address])%list))
  | Crashed => (Panic, (st, (tr ++ [EvDial address])%list))
  | Done connection =>
      match close env (Some old) (tr ++ [EvDial address]) with
      | Done _ =>
          (Ok tt,
           (set_EndPoint (Some (ms.mkEndPoint (Name st) connection)) st,
            (tr ++ [EvDial address; EvClose (Some old)])%list))
      | Failed code =>
          (Err (External code),
           (set_EndPoint None st, (tr ++ [EvDial address; EvClose (Some old)])%list))
      | Crashed =>
          (Panic, (st, (tr ++ [EvDial address; EvClose (Some old)])%list))
      end
  end.
Proof.
  intros Hep.
  unfold connect, disconnect, mbind, M_bind, bind, call, get, modify, ret.
  cbn [fst snd].
  destruct (dial env address tr) as [connection|code|]; cbn [lift]; try reflexivity.
  rewrite Hep. rewrite bool_decide_true by discriminate. cbn [fst snd].
  rewrite Hep.
  destruct (close env (Some old) (tr ++ [EvDial address])) as [[]|code|];
    cbn [lift fst snd]; rewrite <- app_assoc; reflexivity.
Qed.

(** The command [!connect address] calls [connect] with the address. *)
Lemma HandleCommand_connect env address w :
  Contains address " " = false ->
  Execute env ("!connect " ++ address) w = connect env address w.
Proof.
  intros H.
  change ("!connect " ++ address) with (String "!" ("connect" ++ String " " address)).
  unfold Execute. change (Ascii.eqb "!" "!") with true. cbv iota.
  unfold HandleCommand. rewrite Split_app_sep, (Split_no_sep _ _ H). reflexivity.
Qed.

(** ** Control commands *)

(** A control command of one word that starts with [t], [c] or [n] reads
    [tokens[1]] of a slice of one token. *)
Lemma HandleCommand_missing_argument env c word w :
  c = "t"%char \/ c = "c"%char \/ c = "n"%char ->
  Contains (String c word) " " = false ->
  HandleCommand env (String "!" (String c word)) w = (Panic, w).
Proof.
  intros Hc Hword. unfold HandleCommand. rewrite (Split_no_sep _ _ Hword).
  destruct Hc as [->|[->| ->]]; reflexivity.
Qed.

(** ** The pending-input buffer and the nesting counter *)

Lemma int_add_exact a b :
  (- 2 ^ 63 <= a + b < 2 ^ 63)%Z -> int_add a b = (a + b)%Z.
Proof. intros H. unfold int_add. rewrite Z.mod_small; lia. Qed.

Lemma PushInput_unfold line st tr :
  PushInput line (st, tr) =
  let st' := set_shortcutNesting (int_add (shortcutNesting st) 1) st in
  if Z.ltb 10 (int_add (shortcutNesting st) 1) then
    (Err RecursionLimitExceeded, (set_pendingShortcut None st', tr))
  else (Ok tt, (set_pendingShortcut (Some line) st', tr)).
Proof.
  unfold PushInput, mbind, M_bind, bind, modify, get, fail. cbn [fst snd].
  cbn [shortcutNesting set_shortcutNesting].
  now destruct (Z.ltb 10 (int_add (shortcutNesting st) 1)).
Qed.

Lemma GetInput_unfold env st tr :
  GetInput env (st, tr) =
  match pendingShortcut st with
  | None =>
      match reader st with
      | [] => (Err (External (eof env)), (set_shortcutNesting 0 st, tr))
      | line :: rest =>
          (Ok line, (set_reader rest (set_shortcutNesting 0 st), tr))
      end
  | Some line => (Ok line, (set_pendingShortcut None st, tr))
  end.
Proof.
  unfold GetInput, mbind, M_bind, bind, modify, get, fail, ret. cbn [fst snd].
  destruct (pendingShortcut st); [reflexivity|]. now destruct (reader st).
Qed.

Lemma keepsQueue_bind {A B} (m : M A) (k : A -> M B) :
  keepsQueue m -> (forall a, keepsQueue (k a)) -> keepsQueue (x ← m; k x).
Proof.
  intros Hm Hk w r w'. unfold mbind, M_bind, bind.
  destruct (m w) as [[a|e|] w1] eqn:E; intros H.
  - destruct (Hm _ _ _ E) as (H1 & H2 & _).
    destruct (Hk a _ _ _ H) as (H3 & H4 & H5). repeat split; congruence.
  - injection H as <- <-. exact (Hm _ _ _ E).
  - injection H as <- <-. exact (Hm _ _ _ E).
Qed.

Lemma keepsQueue_ret {A} (a : A) : keepsQueue (ret a).
Proof. intros w r w' H. injection H as <- <-. repeat split. intros []. Qed.

Lemma keepsQueue_panic {A} : keepsQueue (@panic A).
Proof. intros w r w' H. injection H as <- <-. repeat split. intros []. Qed.

Lemma keepsQueue_fail {A} e :
  e <> RecursionLimitExceeded -> keepsQueue (@fail A e).
Proof.
  intros He w r w' H. injection H as <- <-. repeat split.
  now destruct e.
Qed.

Lemma keepsQueue_get : keepsQueue get.
Proof. intros w r w' H. injection H as <- <-. repeat split. intros []. Qed.

Lemma keepsQueue_lift {A} (a : answer A) : keepsQueue (pure (lift a)).
Proof.
  intros w r w' H. injection H as <- <-. repeat split.
  destruct a; intros [].
Qed.

Lemma keepsQueue_call {A} ev (ans : list Event -> answer A) :
  keepsQueue (call ev ans).
Proof.
  intros w r w' H. injection H as <- <-. repeat split.
  destruct (ans (snd w)); intros [].
Qed.

Lemma keepsQueue_modify f :
  (forall st, shortcutNesting (f st) = shortcutNesting st) ->
  (forall st, pendingShortcut (f st) = pendingShortcut st) ->
  keepsQueue (modify f).
Proof.
  intros H1 H2 w r w' H. injection H as <- <-. cbn [fst].
  repeat split; [apply H1|apply H2|intros []].
Qed.

Lemma keepsQueue_ignoreErr m : keepsQueue m -> keepsQueue (ignoreErr m).
Proof.
  intros Hm w r w'. unfold ignoreErr.
  destruct (m w) as [[a|e|] w1] eqn:E; intros H; injection H as <- <-;
    destruct (Hm _ _ _ E) as (H1 & H2 & _); repeat split; auto; intros [].
Qed.

Lemma keepsQueue_disconnect env : keepsQueue (disconnect env).
Proof.
  intros [st tr] r w'. unfold disconnect, call. cbn [fst snd].
  destruct (close env (EndPoint st) tr) as [[]|code|]; cbn [lift fst snd];
    intros H; injection H as <- <-; repeat split; intros [].
Qed.

Create HintDb queue.
#[local] Hint Resolve keepsQueue_ret keepsQueue_panic keepsQueue_get
  keepsQueue_lift keepsQueue_call keepsQueue_disconnect keepsQueue_ignoreErr
  : queue.

Ltac keeps_queue :=
  repeat first
    [ apply keepsQueue_bind; [|intros ?]
    | apply keepsQueue_fail; discriminate
    | apply keepsQueue_modify; reflexivity
    | solve [auto with queue]
    | match goal with
      | |- keepsQueue (if ?b then _ else _) => destruct b
      | |- keepsQueue (match ?x with _ => _ end) => destruct x
      end ].

Lemma keepsQueue_connect env address : keepsQueue (connect env address).
Proof. unfold connect. keeps_queue. Qed.

Lemma keepsQueue_HandleCommand env line : keepsQueue (HandleCommand env line).
Proof.
  unfold HandleCommand, saveShortcuts.
  pose proof (keepsQueue_connect env) as Hc.
  keeps_queue.
Qed.

Lemma parsePacketCommand_errors endPoint line e :
  parsePacketCommand endPoint line = Err e ->
  e = MissingChildName \/ e = UnterminatedChildElement \/
  e = UnterminatedStringLiteral.
Proof.
  rewrite parsePacketCommand_tokens.
  destruct (packetTokens line) as [[isRequest [|type rest]]|] eqn:E;
    [now apply packetTokens_not_nil in E| |discriminate].
  destruct (parseTokens (S (length rest)) rest (rootElement isRequest type))
    as [[[rest' el]|e'|]|] eqn:Hp; try discriminate.
  intros H. injection H as <-. now apply parseTokens_errors in Hp.
Qed.

Lemma keepsQueue_parsePacketCommand endPoint line :
  keepsQueue (pure (parsePacketCommand endPoint line)).
Proof.
  intros w r w' H. injection H as <- <-. repeat split.
  destruct (parsePacketCommand endPoint line) as [p|e|] eqn:E; try (intros []).
  apply parsePacketCommand_errors in E as [->|[->| ->]]; intros [].
Qed.

Lemma keepsQueue_expandTemplate shortcut name args :
  keepsQueue (pure (expandTemplate shortcut (name :: args))).
Proof.
  intros w r w' H. injection H as <- <-. repeat split.
  destruct (expandTemplate shortcut (name :: args)) as [x|e|] eqn:E;
    try (intros []).
  apply expandTemplate_errors in E as [k ->]. intros [].
Qed.

(** What [Execute] does to the buffer and the counter: nothing, or, on
    the invocation of a shortcut, what [PushInput] of its expansion does. *)
Lemma Execute_queue env line w r w' :
  Execute env line w = (r, w') ->
  (shortcutNesting (fst w') = shortcutNesting (fst w) /\
   pendingShortcut (fst w') = pendingShortcut (fst w) /\
   ~ recursionError r) \/
  (exists rest result,
     line = String "@" rest /\ PushInput result w = (r, w')).
Proof.
  destruct line as [|c rest]. { intros H. left. exact (keepsQueue_ret tt _ _ _ H). }
  unfold Execute.
  destruct (Ascii.eqb c "!") eqn:Hbang.
  { intros H. left. exact (keepsQueue_HandleCommand env _ _ _ _ H). }
  destruct (Ascii.eqb_spec c "@") as [->|Hat].
  2:{ intros H. left. revert w r w' H.
      change (keepsQueue (st ← get;
        match EndPoint st with
        | Some endPoint =>
            packet ← pure (parsePacketCommand endPoint (String c rest));
            if negb (String.eqb (ms.Name (ms.pElement packet)) "Request") then
              call (EvSend packet) (send env packet)
            else
              _ ← call (EvSubmit packet (Timeout st))
                    (submit env packet (Timeout st));
              ret tt
        | None => fail NotConnected
        end)).
      pose proof keepsQueue_parsePacketCommand as Hp.
      keeps_queue. }
  intros H. revert H. unfold ExpandShortcut.
  pose proof (keepsQueue_lift (csvRead env rest)) as Hcsv.
  unfold mbind at 1, M_bind at 1, bind at 1.
  destruct (pure (lift (csvRead env rest)) w) as [[tokens|e|] w1] eqn:E.
  2,3: intros H; injection H as <- <-; left; exact (Hcsv _ _ _ E).
  injection E as _ <-.
  destruct tokens as [|[|c0 name'] args].
  { intros H. left. revert H. apply keepsQueue_fail. discriminate. }
  { intros H. left. revert H. apply keepsQueue_panic. }
  unfold mbind at 1, M_bind at 1, bind at 1, get at 1.
  destruct (Shortcuts (fst w) !! (if Ascii.eqb c0 "?" then name' else String c0 name'))
    as [shortcut|].
  2:{ intros H. left. revert H. apply keepsQueue_fail. discriminate. }
  pose proof (keepsQueue_expandTemplate shortcut (String c0 name') args) as Hx.
  unfold mbind, M_bind, bind.
  destruct (pure (expandTemplate shortcut (String c0 name' :: args)) w)
    as [[result|e|] w1] eqn:E.
  2,3: intros H; injection H as <- <-; left; exact (Hx _ _ _ E).
  injection E as _ <-.
  destruct (Ascii.eqb c0 "?").
  - intros H. left. revert H. apply keepsQueue_ret.
  - intros H. right. now exists rest, result.
Qed.

(** ** The invariant of the loop *)

(** After [GetInput] the buffer is empty and the counter is at most 10. *)
Lemma GetInput_queue env w r w1 :
  queueInvariant (fst w) -> GetInput env w = (r, w1) ->
  pendingShortcut (fst w1) = None /\
  (0 <= shortcutNesting (fst w1) <= 10)%Z /\
  (pendingShortcut (fst w) = None -> shortcutNesting (fst w1) = 0%Z) /\
  (is_Some (pendingShortcut (fst w)) ->
   shortcutNesting (fst w1) = shortcutNesting (fst w)).
Proof.
  destruct w as [st tr]. intros [Hb Hp]. rewrite GetInput_unfold. cbn [fst] in *.
  destruct (pendingShortcut st) as [line|] eqn:Hpend.
  - intros H. injection H as <- <-. cbn [fst].
    assert (shortcutNesting st <= 10)%Z as Hle by (apply Hp; eauto).
    split; [reflexivity|]. split; [simpl; lia|]. split; [discriminate|].
    reflexivity.
  - assert (~ is_Some (@None string)) as Hno by (intros [? ?]; discriminate).
    destruct (reader st); intros H; injection H as <- <-; cbn [fst];
      (split; [exact Hpend|]; split; [simpl; lia|]; split; [reflexivity|];
       intros HS; now destruct Hno).
Qed.

Lemma PushInput_queue result w r w2 :
  pendingShortcut (fst w) = None ->
  (0 <= shortcutNesting (fst w) <= 10)%Z ->
  PushInput result w = (r, w2) ->
  shortcutNesting (fst w2) = (shortcutNesting (fst w) + 1)%Z /\
  queueInvariant (fst w2) /\
  (recursionError r -> pendingShortcut (fst w2) = None) /\
  (~ recursionError r -> pendingShortcut (fst w2) = Some result).
Proof.
  destruct w as [st tr]. cbn [fst]. intros Hpend Hb.
  rewrite PushInput_unfold. rewrite int_add_exact by lia. cbv zeta.
  unfold queueInvariant.
  destruct (Z.ltb_spec 10 (shortcutNesting st + 1)) as [Hlt|Hge]; intros Heq;
    injection Heq as <- <-; cbn [fst]; simpl;
    repeat split; try lia; try tauto; try (intros [? ?]; discriminate).
Qed.

Lemma loopBody_invariant env w reported w' :
  queueInvariant (fst w) -> loopBody env w = Continue reported w' ->
  queueInvariant (fst w').
Proof.
  intros Hinv. unfold loopBody.
  destruct (GetInput env w) as [[line|e|] w1] eqn:Hget; [| |discriminate].
  2:{ intros H. injection H as _ <-.
      destruct (GetInput_queue _ _ _ _ Hinv Hget) as (Hp & Hb & _).
      split; [lia|]. rewrite Hp. intros [? ?]; discriminate. }
  destruct (GetInput_queue _ _ _ _ Hinv Hget) as (Hp & Hb & _).
  destruct (Execute env line w1) as [r w2] eqn:Hex.
  assert (queueInvariant (fst w2)) as Hinv2.
  { destruct (Execute_queue _ _ _ _ _ Hex) as [(Hn & Hq & _)|(rest & result & _ & Hpush)].
    - split; [lia|]. rewrite Hq, Hp. intros [? ?]; discriminate.
    - now destruct (PushInput_queue _ _ _ _ Hp Hb Hpush) as (_ & ? & _). }
  destruct r as [[]|e|]; [| |discriminate].
  - intros H. now injection H as _ <-.
  - destruct e; try discriminate; intros H; now injection H as _ <-.
Qed.

Lemma reachable_invariant env w : reachable env w -> queueInvariant (fst w).
Proof.
  induction 1 as [shortcuts input|w reported w' _ IH Hturn|st tr _ IH].
  - split; simpl; [lia|]. intros [? ?]; discriminate.
  - exact (loopBody_invariant _ _ _ _ IH Hturn).
  - exact IH.
Qed.

Lemma turns_reachable env n :
  forall w w', reachable env w -> turns env n w = Some w' -> reachable env w'.
Proof.
  induction n as [|n IH]; intros w w' Hw; cbn [turns].
  - intros H. now injection H as <-.
  - destruct (loopBody env w) as [reported w1| |] eqn:E; try discriminate.
    apply IH. exact (reach_turn env w reported w1 Hw E).
Qed.

(** ** The rejected push *)

(** A push at depth 10 or more is rejected and clears the buffer. *)
Lemma PushInput_rejected result st tr :
  (10 <= shortcutNesting st < 2 ^ 63 - 1)%Z ->
  PushInput result (st, tr) =
  (Err RecursionLimitExceeded,
   (set_pendingShortcut None
      (set_shortcutNesting (shortcutNesting st + 1) st), tr)).
Proof.
  intros H. rewrite PushInput_unfold. rewrite int_add_exact by lia. cbv zeta.
  destruct (Z.ltb_spec 10 (shortcutNesting st + 1)); [reflexivity|lia].
Qed.

(** * The claims *)

(** ** C1: quoted tokens *)




(** ** C2: shortcut templates *)



Example template_ping :
  expandTemplate "ping $1 $2" ["ping"; "host"; "22"] = Ok "ping host 22".
Proof. reflexivity. Qed.

Example template_index_zero :
  expandTemplate "ping $0" ["ping"; "host"] = Err (InvalidArgumentIndex 0).
Proof. reflexivity. Qed.

Example template_index_beyond :
  expandTemplate "ping $2" ["ping"; "host"] = Err (InvalidArgumentIndex 2).
Proof. reflexivity. Qed.

Example template_escaped_and_final :
  expandTemplate (String "a" (String backslash "$1 b$")) ["ping"; "host"]
  = Ok (String "a" (String backslash "$1 b$")).
Proof. reflexivity. Qed.

Example template_first_byte :
  expandTemplate "$1 x" ["ping"; "host"] = Ok "$1 x".
Proof. reflexivity. Qed.

(** The two bytes [C3 A9] of a template come out as the four bytes
    [C3 83 C2 A9]. *)
Example template_high_bytes :
  expandTemplate (String (ascii_of_nat 195) (String (ascii_of_nat 169) EmptyString))
    ["e"]
  = Ok (String (ascii_of_nat 195) (String (ascii_of_nat 131)
         (String (ascii_of_nat 194) (String (ascii_of_nat 169) EmptyString)))).
Proof. reflexivity. Qed.

(** ** C3: the nesting counter *)

(** C3, as stated, fails: the counter does exceed 10. [PushInput] adds one
    before it compares, so that the push it rejects leaves the counter at
    11, in a world at the head of the loop. *)
Lemma nesting_counter_reaches_11 :
  reachable demoEnv recursiveEnd /\
  shortcutNesting (fst recursiveEnd) = 11%Z /\
  ~ (shortcutNesting (fst recursiveEnd) <= 10)%Z.
Proof.
  split; [|split; [reflexivity|simpl; lia]].
  apply (turns_reachable demoEnv 11 recursiveStart); [apply reach_init|].
  vm_compute. reflexivity.
Qed.

(** C3 (amended): in every world at the head of the session loop the
    counter is between 0 and 11, and at most 10 while an expansion is
    pending (11 is what the rejected push leaves until the next fresh
    read); the read of the turn sets it to zero when it is a fresh
    interactive read and leaves it alone when it takes the pending
    expansion; the execution of the line leaves it alone, or adds one to
    it, which it does only by [PushInput] of the expansion of a shortcut
    invocation. *)
Theorem nesting_counter_bounded (env : Env) (w : World) :
  reachable env w ->
  (0 <= shortcutNesting (fst w) <= 11)%Z /\
  (is_Some (pendingShortcut (fst w)) -> (shortcutNesting (fst w) <= 10)%Z) /\
  (forall r w1,
     GetInput env w = (r, w1) ->
     (pendingShortcut (fst w) = None -> shortcutNesting (fst w1) = 0%Z) /\
     (is_Some (pendingShortcut (fst w)) ->
      shortcutNesting (fst w1) = shortcutNesting (fst w)) /\
     (forall line r2 w2,
        r = Ok line -> Execute env line w1 = (r2, w2) ->
        shortcutNesting (fst w2) = shortcutNesting (fst w1) \/
        (exists rest result,
           line = String "@" rest /\
           PushInput result w1 = (r2, w2) /\
           shortcutNesting (fst w2) = (shortcutNesting (fst w1) + 1)%Z))).
Proof.
  intros Hreach. pose proof (reachable_invariant _ _ Hreach) as Hinv.
  destruct Hinv as [Hb Hp]. split; [exact Hb|]. split; [exact Hp|].
  intros r w1 Hget.
  destruct (GetInput_queue _ _ _ _ (conj Hb Hp) Hget) as (Hp1 & Hb1 & Hfresh & Hpend).
  split; [exact Hfresh|]. split; [exact Hpend|].
  intros line r2 w2 _ Hex.
  destruct (Execute_queue _ _ _ _ _ Hex) as [(Hn & _)|(rest & result & -> & Hpush)].
  - now left.
  - right. exists rest, result. split; [reflexivity|]. split; [exact Hpush|].
    now destruct (PushInput_queue _ _ _ _ Hp1 Hb1 Hpush) as (? & _).
Qed.

Lemma nesting_counter_bounded_witness :
  (0 <= shortcutNesting (fst recursiveEnd) <= 11)%Z.
Proof.
  refine (proj1 (nesting_counter_bounded demoEnv recursiveEnd _)).
  apply (turns_reachable demoEnv 11 recursiveStart); [apply reach_init|].
  vm_compute. reflexivity.
Defined.

(** ** C4: the recursion limit *)

(** C4: a push that would exceed depth 10 fails with
    [RecursionLimitExceeded] and clears the pending-input buffer; and a
    turn of the loop in which the execution fails so (it can only be the
    push of the expansion of a shortcut) ends with the buffer empty and
    the loop going on, the error reported; the next read then is a fresh
    interactive read, which returns the next line the operator has typed
    and sets the counter to zero. *)
Theorem recursion_limit_keeps_loop_alive (env : Env) (w w1 w2 : World)
    (line : string) :
  GetInput env w = (Ok line, w1) ->
  Execute env line w1 = (Err RecursionLimitExceeded, w2) ->
  (forall result st tr,
     (10 <= shortcutNesting st < 2 ^ 63 - 1)%Z ->
     PushInput result (st, tr) =
     (Err RecursionLimitExceeded,
      (set_pendingShortcut None
         (set_shortcutNesting (shortcutNesting st + 1) st), tr))) /\
  (exists rest result,
     line = String "@" rest /\
     PushInput result w1 = (Err RecursionLimitExceeded, w2)) /\
  pendingShortcut (fst w2) = None /\
  loopBody env w = Continue (Some RecursionLimitExceeded) w2 /\
  (forall next rest,
     reader (fst w2) = next :: rest ->
     GetInput env w2 =
     (Ok next, (set_reader rest (set_shortcutNesting 0 (fst w2)), snd w2))).
Proof.
  intros Hget Hex. split; [exact PushInput_rejected|].
  destruct (Execute_queue _ _ _ _ _ Hex) as [(_ & _ & Hno)|(rest & result & -> & Hpush)].
  { exfalso. now apply Hno. }
  assert (pendingShortcut (fst w2) = None) as Hpend.
  { destruct w1 as [st1 tr1]. rewrite PushInput_unfold in Hpush. cbv zeta in Hpush.
    destruct (Z.ltb 10 (int_add (shortcutNesting st1) 1)); [|discriminate].
    now injection Hpush as <-. }
  split; [now exists rest, result|]. split; [exact Hpend|]. split.
  - unfold loopBody. now rewrite Hget, Hex.
  - intros next rest' Hreader. destruct w2 as [st2 tr2]. cbn [fst snd] in *.
    rewrite GetInput_unfold, Hpend, Hreader. reflexivity.
Qed.

Lemma recursion_limit_keeps_loop_alive_witness :
  loopBody demoEnv recursiveTenth
  = Continue (Some RecursionLimitExceeded)
      (mkState None 2000000000 "mssh" (<["a" := "@a"]> ∅) ["ping"] None 11
               "-?-", []).
Proof.
  refine (proj1 (proj2 (proj2 (proj2
    (recursion_limit_keeps_loop_alive demoEnv recursiveTenth
       (mkState None 2000000000 "mssh" (<["a" := "@a"]> ∅) ["ping"] None 10
                "-?-", [])
       _ "@a" _ _))))).
  - vm_compute. reflexivity.
  - vm_compute. reflexivity.
Defined.

(** ** C5: connecting while connected *)

(** C5, as stated, fails: the old connection is not closed first. On
    [!connect b:1] with a connection open, the transport is asked to dial
    before it is asked to close. *)
Lemma connect_dials_first :
  snd (snd (Execute demoEnv "!connect b:1" (demoConnected, [])))
  = [EvDial "b:1"; EvClose (Some demoEndPoint)] /\
  snd (snd (Execute demoEnv "!connect b:1" (demoConnected, [])))
  <> [EvClose (Some demoEndPoint); EvDial "b:1"].
Proof. split; [reflexivity|discriminate]. Qed.

(** C5 (amended): on a connect command issued while a connection is
    active, the new address is dialed first; if the dial fails, its error
    is returned and the old connection stays open and in place; if it
    succeeds, the old connection is then closed and the session's handle
    is replaced with the new one, or cleared, with the error returned,
    when the close fails. *)
Theorem connect_dials_then_closes (env : Env) (address : string)
    (st : State) (tr : list Event) (old : ms.EndPoint) :
  EndPoint st = Some old ->
  Contains address " " = false ->
  Execute env ("!connect " ++ address) (st, tr) =
  match dial env address tr with
  | Failed code => (Err (External code), (st, (tr ++ [EvDial address])%list))
  | Crashed => (Panic, (st, (tr ++ [EvDial address])%list))
  | Done connection =>
      match close env (Some old) (tr ++ [EvDial address]) with
      | Done _ =>
          (Ok tt,
           (set_EndPoint (Some (ms.mkEndPoint (Name st) connection)) st,
            (tr ++ [EvDial address; EvClose (Some old)])%list))
      | Failed code =>
          (Err (External code),
           (set_EndPoint None st, (tr ++ [EvDial address; EvClose (Some old)])%list))
      | Crashed =>
          (Panic, (st, (tr ++ [EvDial address; EvClose (Some old)])%list))
      end
  end.
Proof.
  intros Hep Haddr. rewrite (HandleCommand_connect env address _ Haddr).
  now apply connect_when_connected.
Qed.

Lemma connect_dials_then_closes_witness :
  Execute demoEnv "!connect b:1" (demoConnected, [])
  = (Ok tt,
     (set_EndPoint (Some (ms.mkEndPoint "mssh" 7)) demoConnected,
      [EvDial "b:1"; EvClose (Some demoEndPoint)])).
Proof.
  exact (connect_dials_then_closes demoEnv "b:1" demoConnected [] demoEndPoint
           eq_refl eq_refl).
Defined.

(** ** C6: a missing type token *)

(** C6: the check [len(tokens) < 1] of [parsePacketCommand] never fires,
    since [strings.Split] never returns an empty slice. The line [?], on
    which no token remains after the [?] is stripped, is parsed to a
    request whose type is the empty string, and no line at all is
    answered with [MissingCommandType]. *)
Theorem missing_type_is_not_reported (endPoint : ms.EndPoint) :
  parsePacketCommand endPoint "?"
  = Ok (ms.mkPacket endPoint
          (ms.mkElement "Request" (<["Type" := EmptyString]> ∅) [])) /\
  (forall line, parsePacketCommand endPoint line <> Err MissingCommandType).
Proof.
  split; [reflexivity|].
  intros line. rewrite parsePacketCommand_tokens.
  destruct (packetTokens line) as [[isRequest [|type rest]]|] eqn:E;
    [now apply packetTokens_not_nil in E| |discriminate].
  destruct (parseTokens (S (length rest)) rest (rootElement isRequest type))
    as [[[rest' el]|e|]|] eqn:Hp; try discriminate.
  apply parseTokens_errors in Hp as [->|[->| ->]]; discriminate.
Qed.

(** ** C7: packet lines while disconnected *)

(** C7: with no active connection, a literal packet line fails with
    [NotConnected] whatever the line holds; the state is untouched and no
    collaborator is called. The same line with a [?] in front fails the
    same way. *)
Theorem packet_line_needs_connection (env : Env) (line : string)
    (st : State) (tr : list Event) :
  packetLine line -> EndPoint st = None ->
  Execute env line (st, tr) = (Err NotConnected, (st, tr)) /\
  Execute env (String "?" line) (st, tr) = (Err NotConnected, (st, tr)).
Proof.
  intros Hline Hep. split.
  - now apply Execute_disconnected.
  - apply Execute_disconnected; [|assumption]. split; discriminate.
Qed.

(** Witnesses of C7 and C8. *)
Lemma packet_line_needs_connection_witness :
  Execute demoEnv "ping a=1" (initialState ∅ [], []) =
  (Err NotConnected, (initialState ∅ [], [])).
Proof.
  refine (proj1 (packet_line_needs_connection demoEnv "ping a=1"
                   (initialState ∅ []) [] _ eq_refl)).
  split; discriminate.
Defined.

(** ** C8: an unclosed child element *)



(** ** C9: the panics of the packet parser *)

(** C9: the packet parser is not total. While connected, [Execute]
    panics on a line of one space, on a line with two consecutive spaces
    (its empty token is indexed at 0) and on a line with the token of a
    single quote (it is sliced from 1 to 0); the last two are panics of
    [parseTokens] with fuel left. *)
Theorem packet_parser_panics (env : Env) (endPoint : ms.EndPoint)
    (st : State) (tr : list Event) :
  let w := (set_EndPoint (Some endPoint) st, tr) in
  Execute env " " w = (Panic, w) /\
  Execute env "a  b" w = (Panic, w) /\
  Execute env (String "a" (String " " (String dquote EmptyString))) w = (Panic, w) /\
  (forall fuel rest el,
     parseTokens (S fuel) (EmptyString :: rest) el = Some Panic) /\
  (forall fuel rest el,
     parseTokens (S fuel) (String dquote EmptyString :: rest) el = Some Panic).
Proof.
  intros w. repeat split; try reflexivity;
    unfold w; rewrite Execute_packetLine with (endPoint := endPoint);
    try reflexivity; split; discriminate.
Qed.

(** ** C10: control commands without their argument *)

(** C10: the dispatcher is not total. [!timeout], [!connect] and [!name]
    without an argument index [tokens[1]] of a slice of one token, which
    panics; so does their one-letter spelling. *)
Theorem command_without_argument_panics (env : Env) (w : World) :
  Execute env "!timeout" w = (Panic, w) /\
  Execute env "!connect" w = (Panic, w) /\
  Execute env "!name" w = (Panic, w) /\
  HandleCommand env "!t" w = (Panic, w) /\
  HandleCommand env "!c" w = (Panic, w) /\
  HandleCommand env "!n" w = (Panic, w).
Proof. repeat split. Qed.

(** * Further properties *)

(** ** The parser on trees *)

Lemma opening_openTokens attached name :
  (attached = true -> name <> EmptyString) ->
  opening (openTokens attached name) name.
Proof.
  destruct attached; intros H; [apply open_attached; now apply H|apply open_lone].
Qed.

Lemma itemsTokens_cons i l : itemsTokens (i :: l) = (itemTokens i ++ itemsTokens l)%list.
Proof. reflexivity. Qed.

Lemma applyItems_cons i l el : applyItems (i :: l) el = applyItems l (applyItem i el).
Proof. reflexivity. Qed.

(** The parser consumes the tokens of well-formed items, up to the end of
    the tokens or to the [>] behind them, and builds the element that the
    items describe. *)
Lemma parseTokens_itemsTokens fuel :
  forall its el rest,
    Forall wfItem its ->
    rest = [] \/ (exists r, rest = ">" :: r) ->
    length (itemsTokens its ++ rest) < fuel ->
    parseTokens fuel (itemsTokens its ++ rest) el
    = Some (Ok (rest, applyItems its el)).
Proof.
  induction fuel as [|fuel IH]; intros its el rest Hwf Hrest Hlen; [lia|].
  destruct its as [|i its].
  { cbn [itemsTokens flat_map app applyItems fold_left].
    destruct Hrest as [->|[r ->]]; reflexivity. }
  inversion_clear Hwf as [|? ? Hi Hits].
  rewrite itemsTokens_cons, applyItems_cons in *.
  rewrite <- app_assoc in *. rewrite length_app in Hlen.
  destruct Hi as [token Hplain|attached name body Hname Hbody].
  - cbn [itemTokens app length] in *.
    rewrite (parseTokens_plain _ _ _ _ Hplain).
    apply IH; [assumption|assumption|lia].
  - cbn [itemTokens applyItem] in *.
    pose proof (opening_openTokens _ _ Hname) as Ho.
    pose proof (opening_length _ _ Ho) as Ho1.
    rewrite <- !app_assoc in *. rewrite !length_app in Hlen. cbn [length app] in Hlen.
    rewrite (parseTokens_open _ _ _ _ _ Ho).
    fold (itemsTokens body) in *.
    cbn [app].
    rewrite (IH body (ms.newElement name) (">" :: itemsTokens its ++ rest)%list Hbody).
    + change (String.eqb ">" ">") with true. cbv iota.
      apply IH; [assumption|assumption|rewrite length_app; lia].
    + right. eauto.
    + rewrite length_app. cbn [length]. rewrite length_app. lia.
Qed.

(** [parseTokens] never changes the name of the element it is given, and
    never removes an attribute. *)
Lemma parseTokens_keeps_Name fuel :
  forall tokens el rest el',
    parseTokens fuel tokens el = Some (Ok (rest, el')) ->
    ms.Name el' = ms.Name el /\
    (forall k, is_Some (ms.Attributes el !! k) -> is_Some (ms.Attributes el' !! k)).
Proof.
  induction fuel as [|fuel IH]; intros tokens el rest el' H; [discriminate|].
  destruct tokens as [|token tl]; cbn [parseTokens] in H.
  { injection H as <- <-. now split. }
  destruct (String.eqb token ">"). { injection H as <- <-. now split. }
  destruct token as [|c0 tail]; [discriminate|].
  destruct (Ascii.eqb c0 "<").
  - destruct (if Nat.ltb 1 (String.length (String c0 tail)) then Some (tail, tl)
              else match tl with [] => None | name :: rest' => Some (name, rest') end)
      as [[name rest1]|]; [|discriminate].
    destruct (parseTokens fuel rest1 (ms.newElement name)) as [[[rest2 child]|e|]|];
      try discriminate.
    destruct rest2 as [|t rest3]; [discriminate|].
    destruct (String.eqb t ">"); [|discriminate].
    now apply IH in H.
  - destruct (negb (Ascii.eqb c0 dquote) && Contains (String c0 tail) "=").
    + destruct (Split (String c0 tail) "=") as [|f0 [|f1 fs]]; try discriminate.
      apply IH in H as [Hn Ha]. split; [exact Hn|].
      intros k Hk. apply Ha. cbn [ms.SetAttribute ms.Attributes].
      destruct (decide (f0 = k)) as [->|Hne];
        [rewrite lookup_insert_eq; eauto|now rewrite lookup_insert_ne].
    + destruct (Ascii.eqb c0 dquote).
      * destruct (negb (bool_decide (lastByte (String c0 tail) = Some dquote)));
          [discriminate|].
        destruct (Nat.ltb (String.length (String c0 tail) - 1) 1); [discriminate|].
        now apply IH in H.
      * now apply IH in H.
Qed.

Lemma itemsTokens_app l1 l2 :
  itemsTokens (l1 ++ l2) = (itemsTokens l1 ++ itemsTokens l2)%list.
Proof. apply flat_map_app. Qed.

Lemma applyItems_app l1 l2 el :
  applyItems (l1 ++ l2) el = applyItems l2 (applyItems l1 el).
Proof. apply fold_left_app. Qed.

Lemma plainUpdate_Children token el :
  ms.Children (plainUpdate token el)
  = (ms.Children el ++ option_list (ms.ChildValue <$> tokenValue token))%list.
Proof.
  destruct token as [|c tail]; cbn [plainUpdate tokenValue].
  { cbn. now rewrite app_nil_r. }
  destruct (Ascii.eqb c dquote); [reflexivity|].
  destruct (Contains (String c tail) "="); [|reflexivity].
  destruct (Split (String c tail) "=") as [|f0 [|f1 fs]]; cbn;
    now rewrite app_nil_r.
Qed.

Lemma applyItem_Children i el :
  ms.Children (applyItem i el)
  = (ms.Children el ++ option_list (itemChild i))%list.
Proof.
  destruct i as [token|attached name body]; [apply plainUpdate_Children|].
  reflexivity.
Qed.

(** The children of the element built are the children it started with,
    followed by what the items contribute, in their order. *)
Lemma applyItems_Children its :
  forall el,
    ms.Children (applyItems its el) = (ms.Children el ++ omap itemChild its)%list.
Proof.
  induction its as [|i its IH]; intros el.
  - cbn. now rewrite app_nil_r.
  - rewrite applyItems_cons, IH, applyItem_Children, <- app_assoc. f_equal.
    cbn [omap list_omap]. now destruct (itemChild i).
Qed.

Lemma applyItem_Name i el : ms.Name (applyItem i el) = ms.Name el.
Proof.
  destruct i as [token|attached name body]; [|reflexivity].
  destruct token as [|c tail]; [reflexivity|]. cbn [applyItem plainUpdate].
  destruct (Ascii.eqb c dquote); [reflexivity|].
  destruct (Contains (String c tail) "="); [|reflexivity].
  now destruct (Split (String c tail) "=") as [|f0 [|f1 fs]].
Qed.

Lemma applyItems_Name its : forall el, ms.Name (applyItems its el) = ms.Name el.
Proof.
  induction its as [|i its IH]; intros el; [reflexivity|].
  now rewrite applyItems_cons, IH, applyItem_Name.
Qed.

(** The packet of a line whose tokens behind the type are those of
    well-formed items, followed by nothing or by a [>] and anything. *)
Lemma parsePacketCommand_items endPoint line isRequest type its rest :
  packetTokens line = Some (isRequest, type :: (itemsTokens its ++ rest)%list) ->
  Forall wfItem its ->
  rest = [] \/ (exists r, rest = ">" :: r) ->
  parsePacketCommand endPoint line
  = Ok (ms.mkPacket endPoint (applyItems its (rootElement isRequest type))).
Proof.
  intros Htok Hwf Hrest. rewrite parsePacketCommand_tokens, Htok.
  rewrite parseTokens_itemsTokens; [reflexivity|assumption|assumption|lia].
Qed.

(** A defect that the cursor reaches is what the parse ends with. *)
Lemma parseTokens_reaches tail ts (r : outcome (list string * ms.Element)) :
  reaches tail ts ->
  (forall fuel el, parseTokens (S fuel) tail el = Some r) ->
  (exists e, r = Err e) \/ r = Panic ->
  forall fuel el, length ts < fuel -> parseTokens fuel ts el = Some r.
Proof.
  intros Hreach Htail Hr.
  induction Hreach as [|t ts Ht _ IH|o name body ts Ho Hbody _ IH|o name ts Ho _ IH];
    intros fuel el Hlen; (destruct fuel as [|fuel]; [lia|]).
  - apply Htail.
  - rewrite (parseTokens_plain _ _ _ _ Ht). apply IH. simpl in Hlen. lia.
  - pose proof (opening_length _ _ Ho) as Ho1.
    rewrite !length_app in Hlen. cbn [length] in Hlen.
    rewrite (parseTokens_open _ _ _ _ _ Ho).
    destruct (parseTokens_items _ Hbody fuel (ms.newElement name) (">" :: ts))
      as [child ->]; [right; eauto| rewrite length_app; cbn [length]; lia |].
    change (String.eqb ">" ">") with true. cbv iota. apply IH. lia.
  - pose proof (opening_length _ _ Ho) as Ho1. rewrite length_app in Hlen.
    rewrite (parseTokens_open _ _ _ _ _ Ho).
    rewrite IH by lia. destruct Hr as [[e ->]| ->]; reflexivity.
Qed.

Lemma parsePacketCommand_reaches endPoint line isRequest type tokens tail
    (r : outcome (list string * ms.Element)) :
  packetTokens line = Some (isRequest, type :: tokens) ->
  reaches tail tokens ->
  (forall fuel el, parseTokens (S fuel) tail el = Some r) ->
  (exists e, r = Err e) \/ r = Panic ->
  parsePacketCommand endPoint line
  = match r with Err e => Err e | _ => Panic end.
Proof.
  intros Htok Hreach Htail Hr. rewrite parsePacketCommand_tokens, Htok.
  rewrite (parseTokens_reaches _ _ _ Hreach Htail Hr) by lia.
  destruct Hr as [[e ->]| ->]; reflexivity.
Qed.

(** The name of the root element of a packet that the parser returns. *)
Lemma parsed_packet_root_aux endPoint line packet isRequest tokens :
  parsePacketCommand endPoint line = Ok packet ->
  packetTokens line = Some (isRequest, tokens) ->
  ms.Name (ms.pElement packet) = (if isRequest then "Request" else "Message").
Proof.
  rewrite parsePacketCommand_tokens. intros Hp Htok. rewrite Htok in Hp.
  destruct tokens as [|type rest]; [discriminate|].
  destruct (parseTokens (S (length rest)) rest (rootElement isRequest type))
    as [[[rest' el]|e|]|] eqn:E; try discriminate.
  injection Hp as <-. apply parseTokens_keeps_Name in E as [Hn Ha].
  cbn [ms.pElement]. rewrite Hn. now destruct isRequest.
Qed.

Ltac wf_items :=
  repeat match goal with
    | |- Forall _ _ => constructor
    | |- wfItem _ => constructor
    | |- plainToken _ => apply plain_other
    | |- items _ => constructor
    | |- _ <> _ => discriminate
    | |- _ -> _ => intros _
    end.

(** ** X1 to X10: the packet parser *)

(** X1: a line whose tokens behind the type are those of a sequence of
    well-formed items (plain tokens and closed children, nested at will)
    is parsed without error to the packet of the element that the items
    describe. *)
Theorem well_formed_line_parses (endPoint : ms.EndPoint) (line : string)
    (isRequest : bool) (type : string) (its : list item) :
  packetTokens line = Some (isRequest, type :: itemsTokens its) ->
  Forall wfItem its ->
  parsePacketCommand endPoint line
  = Ok (ms.mkPacket endPoint (applyItems its (rootElement isRequest type))).
Proof.
  intros Htok Hwf.
  apply (parsePacketCommand_items endPoint line isRequest type its []);
    [now rewrite app_nil_r|assumption|now left].
Qed.

Lemma well_formed_line_parses_witness :
  parsePacketCommand demoEndPoint "get a=1 <row x <cell > > y"
  = Ok (ms.mkPacket demoEndPoint
          (applyItems
             [Plain "a=1";
              Sub true "row" [Plain "x"; Sub true "cell" []];
              Plain "y"]
             (rootElement false "get"))).
Proof.
  apply (well_formed_line_parses demoEndPoint "get a=1 <row x <cell > > y" false
           "get"
           [Plain "a=1"; Sub true "row" [Plain "x"; Sub true "cell" []]; Plain "y"]).
  - vm_compute. reflexivity.
  - wf_items.
Defined.

(** X2: the children of the element parsed from such a line are the
    literal values and the child elements of the line, in the order of the
    line, nothing lost and nothing added; attributes contribute none. *)
Theorem parsed_children_keep_order (endPoint : ms.EndPoint) (line : string)
    (isRequest : bool) (type : string) (its : list item) :
  packetTokens line = Some (isRequest, type :: itemsTokens its) ->
  Forall wfItem its ->
  exists el,
    parsePacketCommand endPoint line = Ok (ms.mkPacket endPoint el) /\
    ms.Children el = omap itemChild its.
Proof.
  intros Htok Hwf. eexists. split.
  - apply (parsePacketCommand_items endPoint line isRequest type its []);
      [now rewrite app_nil_r|assumption|now left].
  - now rewrite applyItems_Children.
Qed.

Lemma parsed_children_keep_order_witness :
  exists el,
    parsePacketCommand demoEndPoint "get b a=1 <row x > c"
    = Ok (ms.mkPacket demoEndPoint el) /\
    ms.Children el
    = [ms.ChildValue "b";
       ms.ChildElement (ms.mkElement "row" ∅ [ms.ChildValue "x"]);
       ms.ChildValue "c"].
Proof.
  apply (parsed_children_keep_order demoEndPoint "get b a=1 <row x > c" false
           "get" [Plain "b"; Plain "a=1"; Sub true "row" [Plain "x"]; Plain "c"]).
  - vm_compute. reflexivity.
  - wf_items.
Defined.

(** X3: whatever the tokens of the line, a packet that the parser
    returns is bound to the end point given, its root element is named
    [Request] when the line starts with [?] and [Message] otherwise, and
    it has a [Type] attribute: no token of the line can rename the root or
    remove the type. *)
Theorem parsed_packet_root (endPoint : ms.EndPoint) (line : string)
    (packet : ms.Packet) (isRequest : bool) (tokens : list string) :
  parsePacketCommand endPoint line = Ok packet ->
  packetTokens line = Some (isRequest, tokens) ->
  ms.pEndPoint packet = endPoint /\
  ms.Name (ms.pElement packet) = (if isRequest then "Request" else "Message") /\
  is_Some (ms.Attributes (ms.pElement packet) !! "Type").
Proof.
  rewrite parsePacketCommand_tokens. intros Hp Htok. rewrite Htok in Hp.
  destruct tokens as [|type rest]; [discriminate|].
  destruct (parseTokens (S (length rest)) rest (rootElement isRequest type))
    as [[[rest' el]|e|]|] eqn:E; try discriminate.
  injection Hp as <-. apply parseTokens_keeps_Name in E as [Hn Ha].
  cbn [ms.pElement ms.pEndPoint].
  split; [reflexivity|]. split; [rewrite Hn; now destruct isRequest|].
  apply Ha. cbn. rewrite lookup_insert_eq. eauto.
Qed.

Lemma parsed_packet_root_witness :
  ms.Name (ms.pElement
             (ms.mkPacket demoEndPoint
                (applyItems [Plain "Name=x"] (rootElement true "get"))))
  = "Request".
Proof.
  refine (proj1 (proj2 (parsed_packet_root demoEndPoint "? get Name=x"
    (ms.mkPacket demoEndPoint
       (applyItems [Plain "Name=x"] (rootElement true "get")))
    true ["get"; "Name=x"] _ _))).
  - vm_compute. reflexivity.
  - vm_compute. reflexivity.
Defined.

(** X4: while connected, a packet line that parses makes exactly one call
    to the transport and leaves the state as it is: the packet is sent
    when the line does not start with [?], and submitted with the timeout
    of the session when it does; the error of the call, if any, is what
    the execution returns. *)
Theorem parsed_line_is_sent_or_submitted (env : Env) (line : string)
    (st : State) (tr : list Event) (endPoint : ms.EndPoint)
    (packet : ms.Packet) (isRequest : bool) (tokens : list string) :
  packetLine line -> EndPoint st = Some endPoint ->
  parsePacketCommand endPoint line = Ok packet ->
  packetTokens line = Some (isRequest, tokens) ->
  Execute env line (st, tr) =
  if isRequest then
    (match submit env packet (Timeout st) tr with
     | Done _ => Ok tt
     | Failed code => Err (External code)
     | Crashed => Panic
     end, (st, (tr ++ [EvSubmit packet (Timeout st)])%list))
  else
    (lift (send env packet tr), (st, (tr ++ [EvSend packet])%list)).
Proof.
  intros Hline Hep Hp Htok.
  pose proof (parsed_packet_root_aux endPoint line packet isRequest tokens Hp Htok)
    as Hname.
  rewrite (Execute_packetLine env line st tr endPoint Hline Hep), Hp, Hname.
  destruct isRequest; cbn [String.eqb negb].
  - change (String.eqb "Request" "Request") with true. cbn [negb].
    unfold mbind, M_bind, bind, call, ret. cbn [fst snd].
    now destruct (submit env packet (Timeout st) tr).
  - change (String.eqb "Message" "Request") with false. reflexivity.
Qed.

Lemma parsed_line_is_sent_or_submitted_witness :
  Execute demoEnv "? get a=1" (demoConnected, [])
  = (Ok tt,
     (demoConnected,
      [EvSubmit
         (ms.mkPacket demoEndPoint
            (applyItems [Plain "a=1"] (rootElement true "get")))
         2000000000])).
Proof.
  refine (parsed_line_is_sent_or_submitted demoEnv "? get a=1" demoConnected []
            demoEndPoint
            (ms.mkPacket demoEndPoint
               (applyItems [Plain "a=1"] (rootElement true "get")))
            true ["get"; "a=1"] _ eq_refl _ _).
  - split; discriminate.
  - vm_compute. reflexivity.
  - vm_compute. reflexivity.
Defined.

(** X5: a [>] that closes no child ends the parse without any error:
    the tokens behind it are dropped, and the packet is the one of the
    line cut in front of that [>]. *)
Theorem tokens_behind_stray_close_are_dropped (endPoint : ms.EndPoint)
    (line : string) (isRequest : bool) (type : string) (its : list item)
    (dropped : list string) :
  packetTokens line
  = Some (isRequest, type :: (itemsTokens its ++ ">" :: dropped)%list) ->
  Forall wfItem its ->
  parsePacketCommand endPoint line
  = Ok (ms.mkPacket endPoint (applyItems its (rootElement isRequest type))).
Proof.
  intros Htok Hwf.
  apply (parsePacketCommand_items endPoint line isRequest type its (">" :: dropped));
    [assumption|assumption|right; eauto].
Qed.

Lemma tokens_behind_stray_close_are_dropped_witness :
  parsePacketCommand demoEndPoint "get a > b=2 <c"
  = Ok (ms.mkPacket demoEndPoint (applyItems [Plain "a"] (rootElement false "get"))).
Proof.
  apply (tokens_behind_stray_close_are_dropped demoEndPoint "get a > b=2 <c" false
           "get" [Plain "a"] ["b=2"; "<c"]).
  - vm_compute. reflexivity.
  - wf_items.
Defined.

(** X6: a lone [<] that is the last token, reached at any depth of
    nesting, makes the parse fail with [MissingChildName]. *)
Theorem lone_open_at_end_is_rejected (endPoint : ms.EndPoint) (line : string)
    (isRequest : bool) (type : string) (tokens : list string) :
  packetTokens line = Some (isRequest, type :: tokens) ->
  reaches ["<"] tokens ->
  parsePacketCommand endPoint line = Err MissingChildName.
Proof.
  intros Htok Hreach.
  apply (parsePacketCommand_reaches endPoint line isRequest type tokens ["<"]
           (Err MissingChildName) Htok Hreach); [reflexivity|left; eauto].
Qed.

Lemma lone_open_at_end_is_rejected_witness :
  parsePacketCommand demoEndPoint "get a=1 <row x <" = Err MissingChildName.
Proof.
  apply (lone_open_at_end_is_rejected demoEndPoint "get a=1 <row x <" false "get"
           ["a=1"; "<row"; "x"; "<"]).
  - vm_compute. reflexivity.
  - apply reaches_plain; [wf_items|].
    apply (reaches_open ["<"] ["<row"] "row" ["x"; "<"]);
      [apply open_attached; discriminate|].
    apply reaches_plain; [wf_items|]. apply reaches_here.
Defined.

(** X7: a token that starts with a double quote and does not end with
    one, reached at any depth of nesting, makes the parse fail with
    [UnterminatedStringLiteral], whatever follows it. *)
Theorem open_quote_is_rejected (endPoint : ms.EndPoint) (line : string)
    (isRequest : bool) (type : string) (tokens : list string)
    (text : string) (rest : list string) :
  packetTokens line = Some (isRequest, type :: tokens) ->
  lastByte (String dquote text) <> Some dquote ->
  reaches (String dquote text :: rest) tokens ->
  parsePacketCommand endPoint line = Err UnterminatedStringLiteral.
Proof.
  intros Htok Hlast Hreach.
  apply (parsePacketCommand_reaches endPoint line isRequest type tokens
           (String dquote text :: rest) (Err UnterminatedStringLiteral) Htok Hreach);
    [|left; eauto].
  intros fuel el. cbn [parseTokens].
  assert (String.eqb (String dquote text) ">" = false) as -> by reflexivity.
  assert (Ascii.eqb dquote "<" = false) as -> by reflexivity.
  assert (Ascii.eqb dquote dquote = true) as -> by reflexivity.
  cbn [negb andb]. now rewrite bool_decide_false.
Qed.

Lemma open_quote_is_rejected_witness :
  parsePacketCommand demoEndPoint (String "g" (String " " (String dquote "a b")))
  = Err UnterminatedStringLiteral.
Proof.
  apply (open_quote_is_rejected demoEndPoint
           (String "g" (String " " (String dquote "a b"))) false "g"
           [String dquote "a"; "b"] "a" ["b"]).
  - vm_compute. reflexivity.
  - discriminate.
  - apply reaches_here.
Defined.

(** X8: an empty token (two spaces in a row) and a token of one double
    quote, reached at any depth of nesting, make the parser panic. *)
Theorem reached_empty_token_panics (endPoint : ms.EndPoint) (line : string)
    (isRequest : bool) (type : string) (tokens : list string)
    (bad : string) (rest : list string) :
  packetTokens line = Some (isRequest, type :: tokens) ->
  bad = EmptyString \/ bad = String dquote EmptyString ->
  reaches (bad :: rest) tokens ->
  parsePacketCommand endPoint line = Panic.
Proof.
  intros Htok Hbad Hreach.
  apply (parsePacketCommand_reaches endPoint line isRequest type tokens
           (bad :: rest) Panic Htok Hreach); [|now right].
  intros fuel el. destruct Hbad as [-> | ->]; reflexivity.
Qed.

Lemma reached_empty_token_panics_witness :
  parsePacketCommand demoEndPoint "get <row a=1  b >" = Panic.
Proof.
  apply (reached_empty_token_panics demoEndPoint "get <row a=1  b >" false "get"
           ["<row"; "a=1"; ""; "b"; ">"] "" ["b"; ">"]).
  - vm_compute. reflexivity.
  - now left.
  - apply (reaches_open _ ["<row"] "row" ["a=1"; ""; "b"; ">"]);
      [apply open_attached; discriminate|].
    apply reaches_plain; [wf_items|]. apply reaches_here.
Defined.

(** The attribute that a token [name=value...] sets at the end of a line
    of well-formed items. *)
Lemma parsePacketCommand_last_attribute endPoint line isRequest type its
    c tail name value fields :
  packetTokens line
  = Some (isRequest, type :: (itemsTokens its ++ [String c tail])%list) ->
  Forall wfItem its ->
  c <> dquote -> c <> "<"%char ->
  Split (String c tail) "=" = name :: value :: fields ->
  exists el,
    parsePacketCommand endPoint line = Ok (ms.mkPacket endPoint el) /\
    ms.Attributes el !! name = Some value.
Proof.
  intros Htok Hwf Hq Hlt Hsplit.
  assert (Contains (String c tail) "=" = true) as Hc.
  { destruct (Contains (String c tail) "=") eqn:E; [reflexivity|].
    rewrite (Split_no_sep _ _ E) in Hsplit. discriminate. }
  assert (String c tail <> ">") as Hgt.
  { intros E. rewrite E in Hc. discriminate. }
  assert (plainToken (String c tail)) as Hplain by now apply plain_other.
  eexists. split.
  - apply (parsePacketCommand_items endPoint line isRequest type
             (its ++ [Plain (String c tail)]) []).
    + now rewrite app_nil_r, itemsTokens_app.
    + apply Forall_app. split; [assumption|]. constructor; [|constructor].
      now constructor.
    + now left.
  - rewrite applyItems_app. cbn [applyItems fold_left applyItem plainUpdate].
    apply Ascii.eqb_neq in Hq. rewrite Hq, Hc, Hsplit.
    cbn [ms.SetAttribute ms.Attributes]. apply lookup_insert_eq.
Qed.

(** X9: an attribute [name=value] that is the last token of a line of
    well-formed items is what the element holds for that name, whatever
    the line said for it before; this includes the name [Type], so that
    an attribute [Type=value] replaces the type that the first token
    gave. *)
Theorem last_attribute_wins (endPoint : ms.EndPoint) (line : string)
    (isRequest : bool) (type : string) (its : list item)
    (c : ascii) (name value : string) :
  packetTokens line
  = Some (isRequest,
          type :: (itemsTokens its
                   ++ [(String c name ++ String "=" value)%string])%list) ->
  Forall wfItem its ->
  c <> dquote -> c <> "<"%char ->
  Contains (String c name) "=" = false -> Contains value "=" = false ->
  exists el,
    parsePacketCommand endPoint line = Ok (ms.mkPacket endPoint el) /\
    ms.Attributes el !! String c name = Some value.
Proof.
  intros Htok Hwf Hq Hlt Hname Hvalue. rewrite append_String in Htok.
  apply (parsePacketCommand_last_attribute endPoint line isRequest type its
           c (name ++ String "=" value) (String c name) value [] Htok Hwf Hq Hlt).
  rewrite <- append_String, Split_app_sep.
  now rewrite (Split_no_sep _ _ Hname), (Split_no_sep _ _ Hvalue).
Qed.

Lemma last_attribute_wins_witness :
  exists el,
    parsePacketCommand demoEndPoint "get Type=put" = Ok (ms.mkPacket demoEndPoint el) /\
    ms.Attributes el !! "Type" = Some "put".
Proof.
  apply (last_attribute_wins demoEndPoint "get Type=put" false "get" [] "T" "ype"
           "put"); try reflexivity; try discriminate. constructor.
Defined.

(** X10: the value of an attribute ends at the second [=] of its token:
    of a last token [name=value=more] the element keeps [value] and drops
    [more]. *)
Theorem attribute_value_ends_at_second_equals (endPoint : ms.EndPoint)
    (line : string) (isRequest : bool) (type : string) (its : list item)
    (c : ascii) (name value more : string) :
  packetTokens line
  = Some (isRequest,
          type :: (itemsTokens its
                   ++ [(String c name
                        ++ String "=" (value ++ String "=" more))%string])%list) ->
  Forall wfItem its ->
  c <> dquote -> c <> "<"%char ->
  Contains (String c name) "=" = false -> Contains value "=" = false ->
  exists el,
    parsePacketCommand endPoint line = Ok (ms.mkPacket endPoint el) /\
    ms.Attributes el !! String c name = Some value.
Proof.
  intros Htok Hwf Hq Hlt Hname Hvalue. rewrite append_String in Htok.
  apply (parsePacketCommand_last_attribute endPoint line isRequest type its
           c (name ++ String "=" (value ++ String "=" more)) (String c name) value
           (Split more "=") Htok Hwf Hq Hlt).
  rewrite <- append_String, Split_app_sep, Split_app_sep.
  now rewrite (Split_no_sep _ _ Hname), (Split_no_sep _ _ Hvalue).
Qed.

Lemma attribute_value_ends_at_second_equals_witness :
  exists el,
    parsePacketCommand demoEndPoint "get q=a=b" = Ok (ms.mkPacket demoEndPoint el) /\
    ms.Attributes el !! "q" = Some "a".
Proof.
  apply (attribute_value_ends_at_second_equals demoEndPoint "get q=a=b" false "get"
           [] "q" "" "a" "b"); try reflexivity; try discriminate. constructor.
Defined.

(** ** The shortcut file *)

Lemma SplitN_2_no_sep s sep : Contains s sep = false -> SplitN s sep 2 = [s].
Proof.
  induction s as [|c s IH]; [reflexivity|]. cbn [Contains SplitN].
  destruct (Ascii.eqb c sep); [discriminate|]. intros H. now rewrite (IH H).
Qed.

Lemma SplitN_2_first k v sep :
  Contains k sep = false -> SplitN (k ++ String sep v) sep 2 = [k; v].
Proof.
  induction k as [|c k IH].
  - intros _. change (EmptyString ++ String sep v) with (String sep v).
    cbn [SplitN]. rewrite Ascii.eqb_refl. now destruct v.
  - cbn [Contains]. rewrite append_String. cbn [SplitN].
    destruct (Ascii.eqb c sep); [discriminate|]. intros H. now rewrite (IH H).
Qed.

Lemma append_not_empty (a : string) c (b : string) :
  exists c' s', a ++ String c b = String c' s'.
Proof. destruct a as [|x a]; [now exists c, b|]. rewrite append_String. eauto. Qed.

(** One record of the file is one assignment. *)
Lemma loadLines_record k v rest m :
  Contains k ":" = false ->
  loadLines ((k ++ String ":" v) :: rest) m = loadLines rest (<[k := v]> m).
Proof.
  intros Hk. cbn [loadLines]. rewrite (SplitN_2_first k v ":" Hk).
  now destruct (append_not_empty k ":" v) as (c' & s' & ->).
Qed.

Lemma loadLines_records entries :
  forall rest m,
    Forall storable entries ->
    loadLines ((map (fun e => (fst e ++ String ":" (snd e))%string) entries ++ rest)%list) m
    = loadLines rest (insertAll entries m).
Proof.
  induction entries as [|[k v] entries IH]; intros rest m Hst; [reflexivity|].
  inversion_clear Hst as [|? ? [Hk _] Hrest]. cbn [map app fst snd].
  rewrite (loadLines_record _ _ _ _ Hk). now apply IH.
Qed.

(** The lines of the file that [saveShortcuts] writes: one per shortcut,
    and the empty line behind the last newline. *)
Lemma Split_shortcutsFile entries tail :
  Forall storable entries ->
  Split (shortcutsFile entries ++ tail) newline
  = (map (fun e => (fst e ++ String ":" (snd e))%string) entries ++ Split tail newline)%list.
Proof.
  induction entries as [|[k v] entries IH]; intros Hst; [reflexivity|].
  inversion_clear Hst as [|? ? (Hk & Hkn & Hvn) Hrest]. cbn [fst snd] in *.
  cbn [shortcutsFile map app fst snd]. unfold shortcutRecord.
  assert (((k ++ String ":" (v ++ String newline EmptyString))
           ++ shortcutsFile entries) ++ tail
          = (k ++ String ":" v) ++ String newline (shortcutsFile entries ++ tail))
    as ->.
  { repeat (rewrite append_assoc_string || rewrite append_String).
    reflexivity. }
  rewrite Split_app_sep, Split_no_sep, (IH Hrest); [reflexivity|].
  rewrite Contains_app. cbn [Contains]. rewrite Hkn, Hvn.
  now destruct (Ascii.eqb ":" newline) eqn:E.
Qed.

Lemma loadShortcuts_shortcutsFile entries st :
  Forall storable entries ->
  loadShortcuts (FileContent (shortcutsFile entries)) st
  = (None, set_Shortcuts (insertAll entries ∅) st).
Proof.
  intros Hst. unfold loadShortcuts. cbv zeta.
  rewrite <- (append_nil_r (shortcutsFile entries)).
  rewrite (Split_shortcutsFile _ _ Hst).
  rewrite (loadLines_records _ _ _ Hst). reflexivity.
Qed.

(** Assignments to different names commute. *)
Lemma insertAll_insert entries :
  forall k v m,
    k ∉ entries.*1 ->
    insertAll entries (<[k := v]> m) = <[k := v]> (insertAll entries m).
Proof.
  induction entries as [|[k' v'] entries IH]; intros k v m Hk; [reflexivity|].
  cbn [insertAll fold_left fst snd] in *. fold (insertAll entries).
  apply not_elem_of_cons in Hk as [Hne Hk]. cbn [fst] in Hne.
  rewrite <- (IH k v _ Hk). f_equal. apply insert_insert_ne. congruence.
Qed.

Lemma insertAll_list_to_map entries :
  NoDup entries.*1 -> insertAll entries ∅ = list_to_map entries.
Proof.
  induction entries as [|[k v] entries IH]; intros Hnd; [reflexivity|].
  apply NoDup_cons in Hnd as [Hk Hnd].
  change (insertAll ((k, v) :: entries) ∅) with (insertAll entries (<[k := v]> ∅)).
  rewrite (insertAll_insert _ _ _ _ Hk), (IH Hnd). reflexivity.
Qed.

(** ** X11 to X14: the shortcut file *)

(** X11: loading a file of records [name:definition] discards the table
    the state had and makes the assignments of the records in the order
    of the file, so that of two records for one name the later one wins;
    no error is returned. *)
Theorem load_replaces_table_in_file_order (entries : list (string * string))
    (st : State) :
  Forall storable entries ->
  loadShortcuts (FileContent (shortcutsFile entries)) st
  = (None, set_Shortcuts (insertAll entries ∅) st).
Proof. apply loadShortcuts_shortcutsFile. Qed.

Lemma load_replaces_table_in_file_order_witness :
  loadShortcuts (FileContent (shortcutsFile [("p", "ping"); ("p", "pong $1")]))
    (initialState (<["old" := "x"]> ∅) [])
  = (None, initialState (<["p" := "pong $1"]> ∅) []).
Proof.
  etransitivity.
  - apply (load_replaces_table_in_file_order [("p", "ping"); ("p", "pong $1")]).
    repeat constructor.
  - vm_compute. reflexivity.
Defined.

(** X12: what [saveShortcuts] writes, [loadShortcuts] reads back: in
    whatever order the table was written, the load restores exactly that
    table, provided no name holds a colon or a newline and no definition
    holds a newline; [main] then starts with the table saved. *)
Theorem saved_shortcuts_load_back (m : gmap string string)
    (entries : list (string * string)) (st : State) (input : list string) :
  entries ≡ₚ map_to_list m ->
  map_Forall (fun name definition => storable (name, definition)) m ->
  loadShortcuts (FileContent (shortcutsFile entries)) st
  = (None, set_Shortcuts m st) /\
  startState (FileContent (shortcutsFile entries)) input = initialState m input.
Proof.
  intros Hperm Hm.
  assert (Forall storable entries) as Hst.
  { rewrite Hperm. apply Forall_forall. intros [k v] Hin.
    apply elem_of_map_to_list in Hin. exact (Hm k v Hin). }
  assert (insertAll entries ∅ = m) as Hall.
  { rewrite insertAll_list_to_map.
    - rewrite <- (list_to_map_to_list m). apply list_to_map_proper; [|exact Hperm].
      rewrite Hperm. apply NoDup_fst_map_to_list.
    - rewrite Hperm. apply NoDup_fst_map_to_list. }
  unfold startState. rewrite !(loadShortcuts_shortcutsFile _ _ Hst), Hall.
  split; reflexivity.
Qed.

Lemma saved_shortcuts_load_back_witness :
  loadShortcuts (FileContent (shortcutsFile [("p", "ping $1")])) (initialState ∅ [])
  = (None, set_Shortcuts (<["p" := "ping $1"]> ∅) (initialState ∅ [])).
Proof.
  refine (proj1 (saved_shortcuts_load_back (<["p" := "ping $1"]> ∅)
                   [("p", "ping $1")] (initialState ∅ []) [] _ _)).
  - now rewrite insert_empty, map_to_list_singleton.
  - rewrite insert_empty. apply map_Forall_singleton. repeat constructor.
Defined.

(** X13: a name that holds a colon does not survive the file: the record
    written for the shortcut [a:b] with definition [d] is read back as the
    shortcut [a] with definition [b:d]. *)
Theorem colon_in_name_is_read_as_definition (a b d : string) (st : State) :
  Contains a ":" = false -> Contains a newline = false ->
  Contains b newline = false -> Contains d newline = false ->
  loadShortcuts (FileContent (shortcutsFile [(a ++ String ":" b, d)])) st
  = (None, set_Shortcuts (<[a := b ++ String ":" d]> ∅) st).
Proof.
  intros Ha Han Hbn Hdn.
  assert (shortcutsFile [(a ++ String ":" b, d)]
          = shortcutsFile [(a, b ++ String ":" d)]) as ->.
  { cbn [shortcutsFile]. unfold shortcutRecord.
    repeat (rewrite append_assoc_string || rewrite append_String). reflexivity. }
  rewrite loadShortcuts_shortcutsFile; [reflexivity|].
  constructor; [|constructor]. repeat split; cbn [fst snd]; try assumption.
  rewrite Contains_app. cbn [Contains]. rewrite Hbn, Hdn.
  now destruct (Ascii.eqb ":" newline) eqn:E.
Qed.

Lemma colon_in_name_is_read_as_definition_witness :
  loadShortcuts (FileContent (shortcutsFile [("db:get", "get $1")]))
    (initialState ∅ [])
  = (None, set_Shortcuts (<["db" := "get:get $1"]> ∅) (initialState ∅ [])).
Proof.
  apply (colon_in_name_is_read_as_definition "db" "get" "get $1"); reflexivity.
Defined.

(** X14: a non-empty line without a colon stops the load with
    [InvalidShortcutDefinition] for that line: the old table is gone, the
    records in front of the line are loaded, and nothing behind it is. *)
Theorem line_without_colon_stops_the_load (entries : list (string * string))
    (c : ascii) (bad behind : string) (st : State) :
  Forall storable entries ->
  Contains (String c bad) ":" = false ->
  Contains (String c bad) newline = false ->
  loadShortcuts
    (FileContent (shortcutsFile entries ++ String c bad ++ String newline behind))
    st
  = (Some (InvalidShortcutDefinition (String c bad)),
     set_Shortcuts (insertAll entries ∅) st).
Proof.
  intros Hst Hcolon Hnl. unfold loadShortcuts. cbv zeta.
  rewrite (Split_shortcutsFile _ _ Hst), Split_app_sep, (Split_no_sep _ _ Hnl).
  rewrite (loadLines_records _ _ _ Hst).
  cbn [app loadLines]. rewrite (SplitN_2_no_sep _ _ Hcolon). reflexivity.
Qed.

Lemma line_without_colon_stops_the_load_witness :
  loadShortcuts
    (FileContent (shortcutsFile [("p", "ping")] ++ "oops"
                  ++ String newline (shortcutsFile [("q", "quit")])))
    (initialState ∅ [])
  = (Some (InvalidShortcutDefinition "oops"),
     set_Shortcuts (insertAll [("p", "ping")] ∅) (initialState ∅ [])).
Proof.
  apply (line_without_colon_stops_the_load [("p", "ping")] "o" "ops"
           (shortcutsFile [("q", "quit")])); try reflexivity.
  repeat constructor.
Defined.

(** ** Templates *)

Lemma stringOfByte_low c :
  (N_of_ascii c <? 128)%N = true -> stringOfByte c = String c EmptyString.
Proof. intros H. unfold stringOfByte. cbv zeta. now rewrite H. Qed.

Lemma stringOfByte_high c :
  (N_of_ascii c <? 128)%N = false ->
  exists a b, stringOfByte c = String a (String b EmptyString).
Proof. intros H. unfold stringOfByte. cbv zeta. rewrite H. eauto. Qed.

Lemma reencode_String c s : reencode (String c s) = stringOfByte c ++ reencode s.
Proof. reflexivity. Qed.

(** Writing a text byte by byte never shortens it. *)
Lemma length_reencode s : String.length s <= String.length (reencode s).
Proof.
  induction s as [|c s IH]; [reflexivity|].
  rewrite reencode_String, length_app_string.
  destruct (N_of_ascii c <? 128)%N eqn:E.
  - rewrite (stringOfByte_low c E). simpl. lia.
  - destruct (stringOfByte_high c E) as (a & b & ->). simpl. lia.
Qed.

(** The texts that are written as they are: those of bytes below [0x80]. *)
Lemma reencode_sevenBit s : reencode s = s <-> sevenBit s = true.
Proof.
  induction s as [|c s IH]; [easy|].
  rewrite reencode_String. cbn [sevenBit].
  destruct (N_of_ascii c <? 128)%N eqn:E.
  - rewrite (stringOfByte_low c E), append_String. cbn [andb].
    change (EmptyString ++ reencode s) with (reencode s).
    rewrite <- IH. split; [now intros [= ->]|now intros ->].
  - destruct (stringOfByte_high c E) as (a & b & ->). cbn [andb].
    split; [|discriminate]. intros H. exfalso.
    apply (f_equal String.length) in H.
    rewrite !append_String in H.
    change (EmptyString ++ reencode s) with (reencode s) in H. simpl in H.
    pose proof (length_reencode s). lia.
Qed.

(** A template without references is written byte by byte. *)
Lemma substitute_inert args template :
  forall prev, inert prev template = true ->
               substitute prev template args = Ok (reencode template).
Proof.
  induction template as [|c rest IH]; intros prev H; [reflexivity|].
  destruct rest as [|d rest'].
  { cbn [substitute reencode]. now rewrite append_nil_r. }
  rewrite substitute_unfold.
  change (inert prev (String c (String d rest')))
    with (negb (Ascii.eqb c "$" && negb (Ascii.eqb prev backslash))
          && inert c (String d rest')) in H.
  apply andb_true_iff in H as [Hc Hrest]. apply negb_true_iff in Hc.
  rewrite Hc, (IH c Hrest). reflexivity.
Qed.

Lemma prepend_nil r : prepend EmptyString r = r.
Proof. now destruct r. Qed.

(** Behind a prefix without [$] that does not end in a backslash, a
    reference to an argument that exists is replaced by the argument. *)
Lemma substitute_reference args d j arg post pre :
  byteMinusZero d = S j -> args !! j = Some arg ->
  forall prev,
    Contains pre "$" = false ->
    lastByte (String prev pre) <> Some backslash ->
    substitute prev (pre ++ String "$" (String d post)) args
    = prepend (reencode pre) (prepend arg (substitute d post args)).
Proof.
  intros Hd Harg. induction pre as [|c pre IH]; intros prev Hpre Hlast.
  - change (EmptyString ++ String "$" (String d post)) with (String "$" (String d post)).
    cbn [reencode].
    rewrite substitute_unfold, prepend_nil, Hd, Harg.
    destruct (Ascii.eqb_spec prev backslash) as [->|Hne]; [now destruct Hlast|].
    reflexivity.
  - cbn [Contains] in Hpre. destruct (Ascii.eqb c "$") eqn:Hc; [discriminate|].
    rewrite append_String.
    destruct (append_not_empty pre "$" (String d post)) as (c' & s' & E).
    rewrite E, substitute_unfold, Hc, <- E. cbn [andb].
    rewrite (IH c Hpre).
    + rewrite prepend_prepend. reflexivity.
    + destruct pre; exact Hlast.
Qed.

(** ** X15 and X16: templates *)

(** X15: a template in which every [$] behind the first byte is preceded
    by a backslash or is the final byte expands to the text in which each
    of its bytes [c] is written as [string(c)]; the backslash of an
    escaped [$] stays in the expansion. The expansion is the template
    itself exactly when every byte of the template is below [0x80]: a byte
    from [0x80] on comes out as two bytes. *)
Theorem inert_template_is_written_bytewise (c0 : ascii) (rest name : string)
    (args : list string) :
  inert c0 rest = true ->
  expandTemplate (String c0 rest) (name :: args) = Ok (reencode (String c0 rest)) /\
  (expandTemplate (String c0 rest) (name :: args) = Ok (String c0 rest)
   <-> sevenBit (String c0 rest) = true).
Proof.
  intros H.
  assert (expandTemplate (String c0 rest) (name :: args)
          = Ok (reencode (String c0 rest))) as E.
  { now rewrite expandTemplate_substitute, (substitute_inert _ _ _ H). }
  split; [exact E|]. rewrite E, <- reencode_sevenBit.
  split; congruence.
Qed.

Lemma inert_template_is_written_bytewise_witness :
  expandTemplate
    (String "a" (String backslash "$1 caf" ++ String (ascii_of_nat 233) "$"))
    ["n"; "x"]
  = Ok (String "a" (String backslash "$1 caf"
          ++ String (ascii_of_nat 195) (String (ascii_of_nat 169) "$"))).
Proof.
  refine (proj1 (inert_template_is_written_bytewise "a"
                   (String backslash "$1 caf" ++ String (ascii_of_nat 233) "$")
                   "n" ["x"] _)).
  vm_compute. reflexivity.
Defined.

(** X16: a reference [$d] to an argument that was supplied, standing
    behind a text without [$] that does not end in a backslash and in
    front of a text without further references, is replaced by that
    argument exactly as it was given: the text of the argument is not
    scanned again and its bytes are not encoded again, whatever it holds,
    while the text around the reference is written byte by byte as
    [string(c)]. *)
Theorem reference_is_replaced_by_argument (c0 : ascii)
    (pre post name arg : string) (d : ascii) (j : nat) (args : list string) :
  Contains pre "$" = false ->
  lastByte (String c0 pre) <> Some backslash ->
  byteMinusZero d = S j -> args !! j = Some arg ->
  inert d post = true ->
  expandTemplate (String c0 pre ++ String "$" (String d post)) (name :: args)
  = Ok (reencode (String c0 pre) ++ arg ++ reencode post).
Proof.
  intros Hpre Hlast Hd Harg Hpost.
  rewrite append_String, expandTemplate_substitute.
  rewrite (substitute_reference args d j arg post pre Hd Harg c0 Hpre Hlast).
  rewrite (substitute_inert _ _ _ Hpost). cbn [prepend].
  now rewrite reencode_String, append_assoc_string.
Qed.

Lemma reference_is_replaced_by_argument_witness :
  expandTemplate (String "t" (String (ascii_of_nat 233) "=$1!"))
    ["t"; "$2" ++ String (ascii_of_nat 233) EmptyString]
  = Ok (String "t" (String (ascii_of_nat 195) (String (ascii_of_nat 169) "="))
        ++ ("$2" ++ String (ascii_of_nat 233) EmptyString) ++ "!").
Proof.
  refine (reference_is_replaced_by_argument "t"
            (String (ascii_of_nat 233) "=") "!" "t"
            ("$2" ++ String (ascii_of_nat 233) EmptyString) "1" 0
            ["$2" ++ String (ascii_of_nat 233) EmptyString] _ _ _ _ _);
    try (vm_compute; reflexivity).
  vm_compute. discriminate.
Defined.

(** ** Control commands *)

Lemma Split_head c s sep :
  c <> sep -> exists t ts, Split (String c s) sep = String c t :: ts.
Proof.
  intros Hc. apply Ascii.eqb_neq in Hc. cbn [Split]. rewrite Hc.
  destruct (Split s sep) as [|t ts]; eauto.
Qed.

Lemma SplitN_app_sep a b sep n :
  Contains a sep = false ->
  SplitN (a ++ String sep b) sep (S (S n)) = a :: SplitN b sep (S n).
Proof.
  induction a as [|c a IH].
  - intros _. change (EmptyString ++ String sep b) with (String sep b).
    cbn [SplitN]. now rewrite Ascii.eqb_refl.
  - cbn [Contains]. rewrite append_String. cbn [SplitN].
    destruct (Ascii.eqb c sep); [discriminate|]. intros H. now rewrite (IH H).
Qed.

(** ** X17 to X20: control commands *)

(** X17: every control line whose first byte behind [!] is [q] ends the
    session with [ErrQuit], whatever follows that byte: an open
    connection is closed first and the error of the close is dropped;
    without a connection no collaborator is called. *)
Theorem quit_closes_and_ends (env : Env) (rest : string) (st : State)
    (tr : list Event) :
  Execute env (String "!" (String "q" rest)) (st, tr) =
  match EndPoint st with
  | None => (Err ErrQuit, (st, tr))
  | Some endPoint =>
      match close env (Some endPoint) tr with
      | Crashed => (Panic, (st, (tr ++ [EvClose (Some endPoint)])%list))
      | _ => (Err ErrQuit,
              (set_EndPoint None st, (tr ++ [EvClose (Some endPoint)])%list))
      end
  end.
Proof.
  destruct (Split_head "q" rest " ") as (t & args & E); [discriminate|].
  unfold Execute. change (Ascii.eqb "!" "!") with true. cbv iota.
  unfold HandleCommand. rewrite E.
  change (Ascii.eqb "q" "q") with true. cbv iota.
  unfold mbind, M_bind, bind, get, fail, ignoreErr, disconnect, call, ret.
  cbn [fst snd].
  destruct (EndPoint st) as [endPoint|] eqn:Hep.
  - rewrite bool_decide_true by discriminate. cbn [fst snd]. rewrite Hep.
    destruct (close env (Some endPoint) tr) as [[]|code|]; reflexivity.
  - rewrite bool_decide_false by (intros H; now apply H). reflexivity.
Qed.

(** X18: every control line whose first byte behind [!] is [d] asks the
    transport to close the end point of the session, also when there is
    none (the close is then called on a nil end point), and leaves the
    session without a handle whether the close succeeds or fails. *)
Theorem disconnect_always_closes (env : Env) (rest : string) (st : State)
    (tr : list Event) :
  Execute env (String "!" (String "d" rest)) (st, tr) =
  match close env (EndPoint st) tr with
  | Done _ =>
      (Ok tt, (set_EndPoint None st, (tr ++ [EvClose (EndPoint st)])%list))
  | Failed code =>
      (Err (External code),
       (set_EndPoint None st, (tr ++ [EvClose (EndPoint st)])%list))
  | Crashed => (Panic, (st, (tr ++ [EvClose (EndPoint st)])%list))
  end.
Proof.
  destruct (Split_head "d" rest " ") as (t & args & E); [discriminate|].
  unfold Execute. change (Ascii.eqb "!" "!") with true. cbv iota.
  unfold HandleCommand. rewrite E.
  change (Ascii.eqb "d" "q") with false. change (Ascii.eqb "d" "t") with false.
  change (Ascii.eqb "d" "c") with false. change (Ascii.eqb "d" "d") with true.
  cbv iota. unfold disconnect, call. cbn [fst snd].
  destruct (close env (EndPoint st) tr) as [[]|code|]; reflexivity.
Qed.

(** X19: a control line whose first byte behind [!] is none of
    [q t c d n s l] and no space fails with [UnsupportedCommand] and
    changes nothing; the letters count in lower case only. *)
Theorem other_commands_are_unsupported (env : Env) (c : ascii) (rest : string)
    (w : World) :
  c <> " "%char ->
  ~ In c ["q"; "t"; "c"; "d"; "n"; "s"; "l"]%char ->
  Execute env (String "!" (String c rest)) w = (Err UnsupportedCommand, w).
Proof.
  intros Hsp Hc. destruct (Split_head c rest " " Hsp) as (t & args & E).
  unfold Execute. change (Ascii.eqb "!" "!") with true. cbv iota.
  unfold HandleCommand. rewrite E.
  repeat match goal with
    | |- context [Ascii.eqb c ?x] =>
        destruct (Ascii.eqb_spec c x) as [->|_];
        [exfalso; apply Hc; cbn; tauto|]
    end.
  reflexivity.
Qed.

Lemma other_commands_are_unsupported_witness :
  Execute demoEnv "!Quit" (demoConnected, [])
  = (Err UnsupportedCommand, (demoConnected, [])).
Proof.
  apply (other_commands_are_unsupported demoEnv "Q" "uit"); [discriminate|].
  cbn. intros [H|[H|[H|[H|[H|[H|[H|[]]]]]]]]; discriminate H.
Defined.

(** X20: a control line that is [!] alone, or has a space right behind
    the [!], panics: the first token is empty and its first byte is
    read. *)
Theorem bang_without_command_panics (env : Env) (rest : string) (w : World) :
  Execute env "!" w = (Panic, w) /\
  Execute env (String "!" (String " " rest)) w = (Panic, w).
Proof. split; reflexivity. Qed.

(** ** Shortcuts *)

(** The invocation of a shortcut leaves the world as it is, or pushes an
    expansion. *)
Lemma Execute_invocation env rest w r w' :
  Execute env (String "@" rest) w = (r, w') ->
  w' = w \/ exists result, PushInput result w = (r, w').
Proof.
  unfold Execute. change (Ascii.eqb "@" "!") with false.
  change (Ascii.eqb "@" "@") with true. cbv iota.
  unfold ExpandShortcut, mbind, M_bind, bind, pure, get, fail, panic, ret.
  destruct (lift (csvRead env rest)) as [tokens|e|];
    [|intros H; injection H as <- <-; now left..].
  destruct tokens as [|[|c0 name'] args];
    [intros H; injection H as <- <-; now left..|].
  destruct (Shortcuts (fst w) !! (if Ascii.eqb c0 "?" then name' else String c0 name'))
    as [shortcut|]; [|intros H; injection H as <- <-; now left].
  destruct (expandTemplate shortcut (String c0 name' :: args)) as [result|e|];
    [|intros H; injection H as <- <-; now left..].
  destruct (Ascii.eqb c0 "?").
  - intros H; injection H as <- <-; now left.
  - intros H. right. now exists result.
Qed.

(** The invocation of a shortcut that is defined, whose template expands. *)
Lemma Execute_invocation_pushes env inv c name args template result w :
  csvRead env inv = Done (String c name :: args) ->
  c <> "?"%char ->
  Shortcuts (fst w) !! String c name = Some template ->
  expandTemplate template (String c name :: args) = Ok result ->
  Execute env (String "@" inv) w = PushInput result w.
Proof.
  intros Hcsv Hc Hdef Hx.
  unfold Execute. change (Ascii.eqb "@" "!") with false.
  change (Ascii.eqb "@" "@") with true. cbv iota.
  unfold ExpandShortcut, mbind, M_bind, bind, pure, get.
  rewrite Hcsv. cbn [lift]. apply Ascii.eqb_neq in Hc. rewrite Hc, Hdef, Hx.
  reflexivity.
Qed.

(** The definition of a shortcut by a control line. *)
Lemma Execute_define env word name definition st tr :
  Contains word " " = false -> Contains name " " = false ->
  Execute env
    (String "!" (String "s" word) ++ String " " (name ++ String " " definition))
    (st, tr)
  = (lift (save env (<[name := definition]> (Shortcuts st)) tr),
     (set_Shortcuts (<[name := definition]> (Shortcuts st)) st,
      (tr ++ [EvSave (<[name := definition]> (Shortcuts st))])%list)).
Proof.
  intros Hword Hname.
  assert (SplitN (String "!" (String "s" word)
                  ++ String " " (name ++ String " " definition)) " " 3
          = [String "!" (String "s" word); name; definition]) as HN.
  { rewrite SplitN_app_sep by exact Hword.
    now rewrite (SplitN_2_first name definition " " Hname). }
  revert HN. rewrite !append_String. intros HN.
  unfold Execute. change (Ascii.eqb "!" "!") with true. cbv iota.
  unfold HandleCommand. rewrite HN.
  rewrite <- append_String, Split_app_sep.
  assert (Contains (String "s" word) " " = false) as Hs by exact Hword.
  rewrite (Split_no_sep _ _ Hs). cbn [app].
  change (Ascii.eqb "s" "q") with false. change (Ascii.eqb "s" "t") with false.
  change (Ascii.eqb "s" "c") with false. change (Ascii.eqb "s" "d") with false.
  change (Ascii.eqb "s" "n") with false. change (Ascii.eqb "s" "s") with true.
  cbv iota. reflexivity.
Qed.

(** ** X21 to X23: shortcuts *)

(** X21: a control line [!s... name definition] stores the definition
    (everything behind the second space, spaces included) under the name
    and asks for the whole table to be saved; the table stays changed
    when the save fails, and the error of the save is what the command
    returns. *)
Theorem definition_is_stored_then_saved (env : Env)
    (word name definition : string) (st : State) (tr : list Event) :
  Contains word " " = false -> Contains name " " = false ->
  let table := <[name := definition]> (Shortcuts st) in
  Execute env
    (String "!" (String "s" word) ++ String " " (name ++ String " " definition))
    (st, tr)
  = (lift (save env table tr),
     (set_Shortcuts table st, (tr ++ [EvSave table])%list)).
Proof. intros Hword Hname. now apply Execute_define. Qed.

Lemma definition_is_stored_then_saved_witness :
  Execute demoEnv "!shortcut p ping $1 $2" (initialState ∅ [], [])
  = (Ok tt,
     (initialState (<["p" := "ping $1 $2"]> ∅) [],
      [EvSave (<["p" := "ping $1 $2"]> ∅)])).
Proof.
  exact (definition_is_stored_then_saved demoEnv "hortcut" "p" "ping $1 $2"
           (initialState ∅ []) [] eq_refl eq_refl).
Defined.

(** X22: a shortcut that has just been defined, invoked from a fresh
    read with arguments for which its template expands, is what the loop
    reads next: the expansion is put into the pending buffer, the counter
    goes up by one, and [GetInput] returns the expansion without reading
    a line of the operator. *)
Theorem defined_shortcut_is_replayed (env : Env)
    (word inv name definition result : string) (c0 : ascii)
    (args : list string) (st : State) (tr : list Event) :
  Contains word " " = false -> Contains (String c0 name) " " = false ->
  csvRead env inv = Done (String c0 name :: args) ->
  c0 <> "?"%char ->
  expandTemplate definition (String c0 name :: args) = Ok result ->
  (0 <= shortcutNesting st < 10)%Z ->
  let table := <[String c0 name := definition]> (Shortcuts st) in
  let w1 := (set_Shortcuts table st, (tr ++ [EvSave table])%list) in
  let st2 :=
    set_pendingShortcut (Some result)
      (set_shortcutNesting (shortcutNesting st + 1) (fst w1)) in
  snd (Execute env
         (String "!" (String "s" word)
          ++ String " " (String c0 name ++ String " " definition)) (st, tr)) = w1 /\
  Execute env (String "@" inv) w1 = (Ok tt, (st2, snd w1)) /\
  GetInput env (st2, snd w1)
  = (Ok result, (set_pendingShortcut None st2, snd w1)).
Proof.
  intros Hword Hname Hcsv Hc Hx Hn table w1 st2.
  split; [now rewrite Execute_define|]. split.
  - rewrite (Execute_invocation_pushes env inv c0 name args definition result w1
               Hcsv Hc); [|apply lookup_insert_eq|exact Hx].
    unfold w1. rewrite PushInput_unfold. cbv zeta.
    cbn [shortcutNesting set_Shortcuts].
    rewrite int_add_exact by lia.
    destruct (Z.ltb_spec 10 (shortcutNesting st + 1)); [lia|reflexivity].
  - rewrite GetInput_unfold. reflexivity.
Qed.

Lemma defined_shortcut_is_replayed_witness :
  Execute demoEnv "@p host 22"
    (initialState (<["p" := "ping $1 $2"]> ∅) [],
     [EvSave (<["p" := "ping $1 $2"]> ∅)])
  = (Ok tt,
     (set_pendingShortcut (Some "ping host 22")
        (set_shortcutNesting 1 (initialState (<["p" := "ping $1 $2"]> ∅) [])),
      [EvSave (<["p" := "ping $1 $2"]> ∅)])).
Proof.
  refine (proj1 (proj2 (defined_shortcut_is_replayed demoEnv "" "p host 22"
    "" "ping $1 $2" "ping host 22" "p" ["host"; "22"] (initialState ∅ []) []
    eq_refl eq_refl eq_refl _ eq_refl _))).
  - discriminate.
  - simpl. lia.
Defined.

(** X23: the invocation of a shortcut, whatever it comes to (preview,
    unknown name, bad argument index, accepted or rejected push), calls no
    collaborator and changes nothing of the session but the pending
    buffer and the nesting counter. *)
Theorem invocation_touches_only_the_queue (env : Env) (rest : string)
    (st st' : State) (tr tr' : list Event) (r : outcome unit) :
  Execute env (String "@" rest) (st, tr) = (r, (st', tr')) ->
  tr' = tr /\
  st' = set_pendingShortcut (pendingShortcut st')
          (set_shortcutNesting (shortcutNesting st') st).
Proof.
  intros H. apply Execute_invocation in H as [H|[result H]].
  - injection H as -> ->. split; [reflexivity|]. now destruct st.
  - rewrite PushInput_unfold in H. cbv zeta in H.
    destruct (Z.ltb 10 (int_add (shortcutNesting st) 1));
      injection H as _ <- <-; split; reflexivity.
Qed.

Lemma invocation_touches_only_the_queue_witness :
  [EvDial "a"] = [EvDial "a"] /\
  set_pendingShortcut (Some "ping h")
    (set_shortcutNesting 1 (initialState (<["p" := "ping $1"]> ∅) []))
  = set_pendingShortcut (Some "ping h")
      (set_shortcutNesting 1 (initialState (<["p" := "ping $1"]> ∅) [])).
Proof.
  apply (invocation_touches_only_the_queue demoEnv "p h"
           (initialState (<["p" := "ping $1"]> ∅) [])
           (set_pendingShortcut (Some "ping h")
              (set_shortcutNesting 1 (initialState (<["p" := "ping $1"]> ∅) [])))
           [EvDial "a"] [EvDial "a"] (Ok tt)).
  vm_compute. reflexivity.
Defined.

(** ** Identity, timeout and the transport *)

Lemma connect_when_disconnected env address st tr connection :
  EndPoint st = None -> dial env address tr = Done connection ->
  connect env address (st, tr)
  = (Ok tt,
     (set_EndPoint (Some (ms.mkEndPoint (Name st) connection)) st,
      (tr ++ [EvDial address])%list)).
Proof.
  intros Hep Hdial.
  unfold connect, mbind, M_bind, bind, call, get, modify, ret. cbn [fst snd].
  rewrite Hdial. cbn [lift]. rewrite Hep.
  rewrite bool_decide_false by (intros H; now apply H). reflexivity.
Qed.

Lemma Execute_name env name st tr :
  Contains name " " = false ->
  Execute env ("!name " ++ name) (st, tr) = (Ok tt, (set_Name name st, tr)).
Proof.
  intros H.
  change ("!name " ++ name) with (String "!" ("name" ++ String " " name)).
  unfold Execute. change (Ascii.eqb "!" "!") with true. cbv iota.
  unfold HandleCommand. rewrite Split_app_sep, (Split_no_sep _ _ H). reflexivity.
Qed.

Lemma Execute_login env rest st tr endPoint :
  EndPoint st = Some endPoint ->
  Execute env (String "!" (String "l" rest)) (st, tr) =
  match submit env (loginRequest endPoint) (Timeout st) tr with
  | Done reply =>
      (Ok tt,
       (set_connectedTo (ms.GetAttribute "Name" "-?-" reply) st,
        (tr ++ [EvSubmit (loginRequest endPoint) (Timeout st)])%list))
  | Failed code =>
      (Err (External code),
       (st, (tr ++ [EvSubmit (loginRequest endPoint) (Timeout st)])%list))
  | Crashed =>
      (Panic, (st, (tr ++ [EvSubmit (loginRequest endPoint) (Timeout st)])%list))
  end.
Proof.
  intros Hep. destruct (Split_head "l" rest " ") as (t & args & E); [discriminate|].
  unfold Execute. change (Ascii.eqb "!" "!") with true. cbv iota.
  unfold HandleCommand. rewrite E.
  change (Ascii.eqb "l" "q") with false. change (Ascii.eqb "l" "t") with false.
  change (Ascii.eqb "l" "c") with false. change (Ascii.eqb "l" "d") with false.
  change (Ascii.eqb "l" "n") with false. change (Ascii.eqb "l" "s") with false.
  change (Ascii.eqb "l" "l") with true. cbv iota.
  unfold mbind, M_bind, bind, get, call, modify. cbn [fst snd]. rewrite Hep.
  cbn [fst snd].
  destruct (submit env (loginRequest endPoint) (Timeout st) tr); reflexivity.
Qed.

Lemma Execute_timeout env seconds st tr :
  Contains seconds " " = false ->
  Execute env ("!timeout " ++ seconds) (st, tr) =
  match parseSeconds env seconds with
  | Done d => (Ok tt, (set_Timeout d st, tr))
  | Failed code => (Err (External code), (st, tr))
  | Crashed => (Panic, (st, tr))
  end.
Proof.
  intros H.
  change ("!timeout " ++ seconds) with (String "!" ("timeout" ++ String " " seconds)).
  unfold Execute. change (Ascii.eqb "!" "!") with true. cbv iota.
  unfold HandleCommand. rewrite Split_app_sep, (Split_no_sep _ _ H).
  change (Split "timeout" " ") with ["timeout"]. cbn [app].
  change (Ascii.eqb "t" "q") with false.
  change (Ascii.eqb "t" "t") with true. cbv iota.
  unfold mbind, M_bind, bind, pure, modify. cbn [fst snd].
  destruct (parseSeconds env seconds); reflexivity.
Qed.

(** ** X24 and X25: identity and timeout *)

(** X24: the end point of a connection carries the name the session had
    when it connected; a change of the name afterwards does not reach the
    open connection, and the login request goes out under the name of
    the end point, with the timeout of the session. *)
Theorem identity_is_fixed_at_connect (env : Env)
    (name other address : string) (connection : nat)
    (st : State) (tr : list Event) :
  Contains name " " = false -> Contains other " " = false ->
  Contains address " " = false ->
  EndPoint st = None -> dial env address tr = Done connection ->
  let endPoint := ms.mkEndPoint name connection in
  let st1 := set_Name name st in
  let st2 := set_EndPoint (Some endPoint) st1 in
  let tr2 := (tr ++ [EvDial address])%list in
  let st3 := set_Name other st2 in
  Execute env ("!name " ++ name) (st, tr) = (Ok tt, (st1, tr)) /\
  Execute env ("!connect " ++ address) (st1, tr) = (Ok tt, (st2, tr2)) /\
  Execute env ("!name " ++ other) (st2, tr2) = (Ok tt, (st3, tr2)) /\
  EndPoint st3 = Some endPoint /\
  snd (snd (Execute env "!login" (st3, tr2)))
  = (tr2 ++ [EvSubmit (loginRequest endPoint) (Timeout st)])%list.
Proof.
  intros Hname Hother Haddr Hep Hdial endPoint st1 st2 tr2 st3.
  split; [now apply Execute_name|]. split.
  { rewrite (HandleCommand_connect env address _ Haddr).
    now apply connect_when_disconnected. }
  split; [now apply Execute_name|]. split; [reflexivity|].
  rewrite (Execute_login env "ogin" st3 tr2 endPoint eq_refl).
  now destruct (submit env (loginRequest endPoint) (Timeout st3) tr2).
Qed.

Lemma identity_is_fixed_at_connect_witness :
  snd (snd (Execute demoEnv "!login"
              (set_Name "eve"
                 (set_EndPoint (Some (ms.mkEndPoint "bob" 7))
                    (set_Name "bob" (initialState ∅ []))),
               [EvDial "h:1"])))
  = [EvDial "h:1"; EvSubmit (loginRequest (ms.mkEndPoint "bob" 7)) 2000000000].
Proof.
  exact (proj2 (proj2 (proj2 (proj2
    (identity_is_fixed_at_connect demoEnv "bob" "eve" "h:1" 7 (initialState ∅ []) []
       eq_refl eq_refl eq_refl eq_refl eq_refl))))).
Defined.



(** ** Leaving the loop *)

Lemma neverQuits_bind {A B} (m : M A) (k : A -> M B) :
  neverQuits m -> (forall a, neverQuits (k a)) -> neverQuits (x ← m; k x).
Proof.
  intros Hm Hk w r w'. unfold mbind, M_bind, bind.
  destruct (m w) as [[a|e|] w1] eqn:E; intros H.
  - exact (Hk a _ _ _ H).
  - injection H as <- <-. exact (Hm _ _ _ E).
  - injection H as <- <-. intros [].
Qed.

Lemma neverQuits_ret {A} (a : A) : neverQuits (ret a).
Proof. intros w r w' H. injection H as <- <-. intros []. Qed.

Lemma neverQuits_panic {A} : neverQuits (@panic A).
Proof. intros w r w' H. injection H as <- <-. intros []. Qed.

Lemma neverQuits_fail {A} e : e <> ErrQuit -> neverQuits (@fail A e).
Proof. intros He w r w' H. injection H as <- <-. now destruct e. Qed.

Lemma neverQuits_get : neverQuits get.
Proof. intros w r w' H. injection H as <- <-. intros []. Qed.

Lemma neverQuits_lift {A} (a : answer A) : neverQuits (pure (lift a)).
Proof. intros w r w' H. injection H as <- <-. destruct a; intros []. Qed.

Lemma neverQuits_call {A} ev (ans : list Event -> answer A) :
  neverQuits (call ev ans).
Proof.
  intros w r w' H. injection H as <- <-. destruct (ans (snd w)); intros [].
Qed.

Lemma neverQuits_modify f : neverQuits (modify f).
Proof. intros w r w' H. injection H as <- <-. intros []. Qed.

Lemma neverQuits_disconnect env : neverQuits (disconnect env).
Proof.
  intros [st tr] r w'. unfold disconnect, call. cbn [fst snd].
  destruct (close env (EndPoint st) tr) as [[]|code|]; cbn [lift fst snd];
    intros H; injection H as <- <-; intros [].
Qed.

Lemma neverQuits_parsePacketCommand endPoint line :
  neverQuits (pure (parsePacketCommand endPoint line)).
Proof.
  intros w r w' H. injection H as <- <-.
  destruct (parsePacketCommand endPoint line) as [p|e|] eqn:E; try (intros []).
  apply parsePacketCommand_errors in E as [->|[->| ->]]; intros [].
Qed.

Lemma neverQuits_expandTemplate shortcut name args :
  neverQuits (pure (expandTemplate shortcut (name :: args))).
Proof.
  intros w r w' H. injection H as <- <-.
  destruct (expandTemplate shortcut (name :: args)) as [x|e|] eqn:E;
    try (intros []).
  apply expandTemplate_errors in E as [k ->]. intros [].
Qed.

Lemma neverQuits_PushInput line : neverQuits (PushInput line).
Proof.
  intros [st tr] r w'. rewrite PushInput_unfold. cbv zeta.
  destruct (Z.ltb 10 (int_add (shortcutNesting st) 1));
    intros H; injection H as <- <-; intros [].
Qed.

Create HintDb quit.
#[local] Hint Resolve neverQuits_ret neverQuits_panic neverQuits_get
  neverQuits_lift neverQuits_call neverQuits_disconnect neverQuits_modify
  neverQuits_parsePacketCommand neverQuits_expandTemplate neverQuits_PushInput
  : quit.

Ltac never_quits :=
  repeat first
    [ apply neverQuits_bind; [|intros ?]
    | apply neverQuits_fail; discriminate
    | solve [auto with quit]
    | match goal with
      | |- neverQuits (if ?b then _ else _) => destruct b
      | |- neverQuits (match ?x with _ => _ end) => destruct x
      end ].

Lemma neverQuits_connect env address : neverQuits (connect env address).
Proof. unfold connect. never_quits. Qed.

Lemma Split_head_inv s sep c t ts :
  Split s sep = String c t :: ts -> exists r, s = String c r.
Proof.
  destruct s as [|x s]; [discriminate|]. cbn [Split].
  destruct (Ascii.eqb x sep); [discriminate|].
  destruct (Split s sep); intros H; injection H as -> _; eauto.
Qed.

(** Only a control line whose first byte behind [!] is [q] fails with
    [ErrQuit]. *)
Lemma Execute_quits env line w r w' :
  Execute env line w = (r, w') -> quitError r ->
  exists rest, line = String "!" (String "q" rest).
Proof.
  intros H Hq. destruct line as [|c rest].
  { exfalso. exact (neverQuits_ret tt _ _ _ H Hq). }
  unfold Execute in H.
  destruct (Ascii.eqb_spec c "!") as [->|Hbang].
  - unfold HandleCommand in H.
    destruct (Split rest " ") as [|[|c' t] args] eqn:E.
    + exfalso. revert H Hq. apply neverQuits_fail. discriminate.
    + exfalso. revert H Hq. apply neverQuits_panic.
    + destruct (Ascii.eqb_spec c' "q") as [->|Hne].
      { apply Split_head_inv in E as [r' ->]. eauto. }
      exfalso. revert w r w' H Hq.
      pose proof (neverQuits_connect env) as Hc.
      unfold saveShortcuts.
      match goal with |- forall w r w', ?m w = _ -> _ =>
        change (neverQuits m) end.
      never_quits.
  - exfalso. revert w r w' H Hq.
    match goal with |- forall w r w', ?m w = _ -> _ =>
      change (neverQuits m) end.
    unfold ExpandShortcut. never_quits.
Qed.

(** ** X26 to X28: the loop *)



(** X27: at the end of the input the loop does not stop: with no
    expansion pending and no line left to read, every turn reports the
    end-of-file error and leaves the session as it is (the counter at
    zero), turn after turn, without ever leaving or panicking. *)
Theorem end_of_input_never_stops_the_loop (env : Env) (st : State)
    (tr : list Event) (n : nat) :
  pendingShortcut st = None -> reader st = [] ->
  loopBody env (st, tr)
  = Continue (Some (External (eof env))) (set_shortcutNesting 0 st, tr) /\
  turns env (S n) (st, tr) = Some (set_shortcutNesting 0 st, tr).
Proof.
  intros Hpend Hreader.
  assert (forall st0, pendingShortcut st0 = None -> reader st0 = [] ->
            loopBody env (st0, tr)
            = Continue (Some (External (eof env))) (set_shortcutNesting 0 st0, tr))
    as Hturn.
  { intros st0 Hp Hr. unfold loopBody. rewrite GetInput_unfold, Hp, Hr.
    reflexivity. }
  split; [now apply Hturn|].
  revert st Hpend Hreader. induction n as [|n IH]; intros st Hpend Hreader.
  - cbn [turns]. now rewrite (Hturn st Hpend Hreader).
  - change (turns env (S (S n)) (st, tr))
      with (match loopBody env (st, tr) with
            | Continue _ w' => turns env (S n) w'
            | _ => None
            end).
    rewrite (Hturn st Hpend Hreader). now rewrite IH.
Qed.

Lemma end_of_input_never_stops_the_loop_witness :
  turns demoEnv 1000 (initialState ∅ [], []) = Some (initialState ∅ [], []).
Proof.
  exact (proj2 (end_of_input_never_stops_the_loop demoEnv (initialState ∅ []) []
                  999 eq_refl eq_refl)).
Defined.

(** A turn that starts with an expansion pending ends with the buffer
    empty or with the counter one higher. *)
Lemma loopBody_pending env w reported w' :
  queueInvariant (fst w) -> is_Some (pendingShortcut (fst w)) ->
  loopBody env w = Continue reported w' ->
  queueInvariant (fst w') /\
  (pendingShortcut (fst w') = None \/
   shortcutNesting (fst w') = (shortcutNesting (fst w) + 1)%Z).
Proof.
  intros Hinv Hsome Hturn.
  split; [exact (loopBody_invariant _ _ _ _ Hinv Hturn)|].
  unfold loopBody in Hturn.
  destruct (GetInput env w) as [[line|e|] w1] eqn:Hget; [| |discriminate].
  2:{ injection Hturn as _ <-.
      destruct (GetInput_queue _ _ _ _ Hinv Hget) as (Hp & _). now left. }
  destruct (GetInput_queue _ _ _ _ Hinv Hget) as (Hp & Hb & _ & Hkeep).
  specialize (Hkeep Hsome).
  destruct (Execute env line w1) as [r w2] eqn:Hex.
  assert (w' = w2) as ->.
  { destruct r as [[]|e|]; [| |discriminate].
    - now injection Hturn as _ <-.
    - destruct e; try discriminate; now injection Hturn as _ <-. }
  destruct (Execute_queue _ _ _ _ _ Hex) as [(Hn & Hq & _)|(rest & result & _ & Hpush)].
  - left. now rewrite Hq.
  - right. destruct (PushInput_queue _ _ _ _ Hp Hb Hpush) as (Hn & _).
    now rewrite Hn, Hkeep.
Qed.

Lemma pending_runs_out env d :
  forall w,
    queueInvariant (fst w) ->
    (is_Some (pendingShortcut (fst w)) -> (11 - shortcutNesting (fst w) <= Z.of_nat d)%Z) ->
    exists k, k <= d /\
      (turns env k w = None \/
       exists w', turns env k w = Some w' /\ pendingShortcut (fst w') = None).
Proof.
  induction d as [|d IH]; intros w Hinv Hd.
  - exists 0. split; [lia|]. right. exists w. split; [reflexivity|].
    destruct (pendingShortcut (fst w)) eqn:E; [|reflexivity].
    destruct Hinv as [_ Hle]. specialize (Hle (ltac:(eauto))).
    specialize (Hd (ltac:(eauto))). lia.
  - destruct (pendingShortcut (fst w)) as [line|] eqn:E.
    2:{ exists 0. split; [lia|]. right. now exists w. }
    destruct (loopBody env w) as [reported w1| |] eqn:Hturn.
    + destruct (loopBody_pending env w reported w1 Hinv) as (Hinv1 & Hcase);
        [rewrite E; eauto|exact Hturn|].
      destruct (IH w1 Hinv1) as (k & Hk & Hres).
      { intros Hsome. destruct Hcase as [Hnone|Hn].
        - rewrite Hnone in Hsome. destruct Hsome; discriminate.
        - rewrite Hn. specialize (Hd (ltac:(eauto))). lia. }
      exists (S k). split; [lia|]. cbn [turns]. now rewrite Hturn.
    + exists 1. split; [lia|]. left. cbn [turns]. now rewrite Hturn.
    + exists 1. split; [lia|]. left. cbn [turns]. now rewrite Hturn.
Qed.

(** At the head of the loop, a pending expansion means a counter of one
    at least. *)
Lemma loopBody_pending_positive env w reported w' :
  queueInvariant (fst w) -> loopBody env w = Continue reported w' ->
  is_Some (pendingShortcut (fst w')) -> (1 <= shortcutNesting (fst w'))%Z.
Proof.
  intros Hinv Hturn Hsome. unfold loopBody in Hturn.
  destruct (GetInput env w) as [[line|e|] w1] eqn:Hget; [| |discriminate].
  2:{ injection Hturn as _ <-.
      destruct (GetInput_queue _ _ _ _ Hinv Hget) as (Hp & _).
      rewrite Hp in Hsome. destruct Hsome; discriminate. }
  destruct (GetInput_queue _ _ _ _ Hinv Hget) as (Hp & Hb & _).
  destruct (Execute env line w1) as [r w2] eqn:Hex.
  assert (w' = w2) as ->.
  { destruct r as [[]|e|]; [| |discriminate].
    - now injection Hturn as _ <-.
    - destruct e; try discriminate; now injection Hturn as _ <-. }
  destruct (Execute_queue _ _ _ _ _ Hex) as [(Hn & Hq & _)|(rest & result & _ & Hpush)].
  - rewrite Hq, Hp in Hsome. destruct Hsome; discriminate.
  - destruct (PushInput_queue _ _ _ _ Hp Hb Hpush) as (Hn & _). lia.
Qed.

Lemma reachable_pending_positive env w :
  reachable env w ->
  is_Some (pendingShortcut (fst w)) -> (1 <= shortcutNesting (fst w))%Z.
Proof.
  induction 1 as [shortcuts input|w reported w' Hw IH Hturn|st tr _ IH].
  - intros [? H]; discriminate H.
  - apply (loopBody_pending_positive env w reported w');
      [exact (reachable_invariant env w Hw)|exact Hturn].
  - exact IH.
Qed.

(** X28: shortcuts cannot keep the loop to themselves: from every world
    at the head of the loop, within ten turns the pending buffer is empty
    (so that the next read is the operator's), unless the session has
    ended before. *)
Theorem operator_is_read_within_ten_turns (env : Env) (w : World) :
  reachable env w ->
  exists k, k <= 10 /\
    (turns env k w = None \/
     exists w', turns env k w = Some w' /\ pendingShortcut (fst w') = None).
Proof.
  intros Hreach. pose proof (reachable_invariant _ _ Hreach) as Hinv.
  apply (pending_runs_out env 10 w Hinv).
  intros Hsome. pose proof (reachable_pending_positive _ _ Hreach Hsome). lia.
Qed.

Lemma operator_is_read_within_ten_turns_witness :
  pendingShortcut (fst recursiveFirst) = Some "@a" /\
  exists k, k <= 10 /\
    (turns demoEnv k recursiveFirst = None \/
     exists w', turns demoEnv k recursiveFirst = Some w' /\
                pendingShortcut (fst w') = None).
Proof.
  split; [reflexivity|].
  apply (operator_is_read_within_ten_turns demoEnv recursiveFirst).
  apply (turns_reachable demoEnv 1 recursiveStart); [apply reach_init|].
  vm_compute. reflexivity.
Defined.

(** The bound is met: in the session of the recursive shortcut the buffer
    is still full nine turns after the first expansion, and empty after
    the tenth, in which the push is rejected. *)
Example ten_turns_are_needed :
  (forall k, k <= 9 ->
     exists w', turns demoEnv k recursiveFirst = Some w' /\
                pendingShortcut (fst w') = Some "@a") /\
  turns demoEnv 10 recursiveFirst = Some recursiveEnd /\
  pendingShortcut (fst recursiveEnd) = None.
Proof.
  split; [|split; [vm_compute; reflexivity|reflexivity]].
  intros k Hk.
  do 10 (destruct k as [|k]; [eexists; split; vm_compute; reflexivity|]).
  lia.
Qed.

(** ** X29: looking shortcuts up *)

Lemma SplitN_no_sep s sep n :
  Contains s sep = false -> SplitN s sep (S (S n)) = [s].
Proof.
  induction s as [|c s IH]; [reflexivity|]. cbn [Contains SplitN].
  destruct (Ascii.eqb c sep); [discriminate|]. intros H. now rewrite (IH H).
Qed.

(** X29: the shortcut command with no argument (the listing) or with a
    name alone (the lookup, of a name defined or not) returns without
    error, changes nothing of the session and calls no collaborator: only
    the form with a definition writes the table and the file. *)
Theorem lookup_changes_nothing (env : Env) (word name : string) (w : World) :
  Contains word " " = false -> Contains name " " = false ->
  Execute env (String "!" (String "s" word)) w = (Ok tt, w) /\
  Execute env (String "!" (String "s" word) ++ String " " name) w = (Ok tt, w).
Proof.
  intros Hword Hname.
  assert (Contains (String "s" word) " " = false) as Hs by exact Hword.
  assert (Contains (String "!" (String "s" word)) " " = false) as Hbang
      by exact Hword.
  split.
  - unfold Execute. change (Ascii.eqb "!" "!") with true. cbv iota.
    unfold HandleCommand. rewrite (Split_no_sep _ _ Hs).
    rewrite (SplitN_no_sep _ _ 1 Hbang).
    change (Ascii.eqb "s" "q") with false. change (Ascii.eqb "s" "t") with false.
    change (Ascii.eqb "s" "c") with false. change (Ascii.eqb "s" "d") with false.
    change (Ascii.eqb "s" "n") with false. change (Ascii.eqb "s" "s") with true.
    reflexivity.
  - assert (SplitN (String "!" (String "s" word) ++ String " " name) " " 3
            = [String "!" (String "s" word); name]) as HN.
    { rewrite SplitN_app_sep by exact Hbang.
      now rewrite (SplitN_2_no_sep _ _ Hname). }
    revert HN. rewrite !append_String. intros HN.
    unfold Execute. change (Ascii.eqb "!" "!") with true. cbv iota.
    unfold HandleCommand. rewrite HN.
    rewrite <- append_String, Split_app_sep, (Split_no_sep _ _ Hs). cbn [app].
    change (Ascii.eqb "s" "q") with false. change (Ascii.eqb "s" "t") with false.
    change (Ascii.eqb "s" "c") with false. change (Ascii.eqb "s" "d") with false.
    change (Ascii.eqb "s" "n") with false. change (Ascii.eqb "s" "s") with true.
    reflexivity.
Qed.

Lemma lookup_changes_nothing_witness :
  Execute demoEnv "!shortcut nope" (demoConnected, [])
  = (Ok tt, (demoConnected, [])).
Proof.
  exact (proj2 (lookup_changes_nothing demoEnv "hortcut" "nope"
                  (demoConnected, []) eq_refl eq_refl)).
Defined.
